(** * lamp: a shallow embedding of the invocation layer and the evaluation
      harness of travisennis/lamp

Sources embedded here:
- [source/output.ts]   : [writeln], [writeError], [writeHeader], [writehr]
- [source/lamp.ts]     : [lamp], [getText], [getObject], [logMessages]
- [source/evaluate.ts] : [describe], [Evaluator] (constructor and [run])

JavaScript objects used as bags of named settings are finite maps from
property names to values; [async] functions are computations in a
state-and-exception monad whose state carries the outside world (the
generation backend, the clock) and everything written to standard
output; a rejected promise and a thrown exception are the same
outcome.  The numbers of [describe] are IEEE-754 doubles, with the
arithmetic of the standard library's primitive floats. *)

From Stdlib Require Import ZArith QArith Ascii String List Lia.
From Stdlib Require Import Sorting.Permutation Sorting.Sorted.
From Stdlib Require PrimFloat Uint63 SpecFloat FloatOps FloatAxioms.
From stdpp Require Import base gmap strings list pretty.
Close Scope Q_scope.

(** ** JavaScript values, errors and the effect monad *)

Module JS.

(** The values that can sit in a configuration object.  Objects that the
    code only passes along (model handles, schemas, abort signals, header
    records) are opaque references. *)
Inductive Val : Type :=
| VUndef
| VBool (b : bool)
| VNum (q : Q)
| VStr (s : string)
| VArr (l : list string)
| VObj (ref : nat).

(** [ToBoolean]: what [if (v)] and [v ? a : b] test. *)
Definition truthy (v : Val) : bool :=
  match v with
  | VUndef => false
  | VBool b => b
  | VNum q => negb (Qeq_bool q 0)
  | VStr s => negb (String.eqb s "")
  | VArr _ => true
  | VObj _ => true
  end.

(** Truthiness of a [string | undefined]. *)
Definition truthy_str (s : option string) : bool :=
  match s with
  | None => false
  | Some s => negb (String.eqb s "")
  end.

(** [o.k]: reading a property that is not there gives [undefined]. *)
Definition get (o : gmap string Val) (k : string) : Val :=
  default VUndef (o !! k).

(** [{k1, ..., kn, ...rest} = o]: the rest object holds every own property
    of [o] but the ones named. *)
Definition rest (o : gmap string Val) (named : list string) : gmap string Val :=
  foldr delete o named.

(** [{...dst, ...src}]: properties of [src] override those of [dst]. *)
Definition spread (dst src : gmap string Val) : gmap string Val :=
  src ∪ dst.

(** [`${v}`] for a [string | undefined]. *)
Definition to_string (v : option string) : string :=
  match v with
  | None => "undefined"
  | Some s => s
  end.

(** Thrown values: an error name and its message. *)
Record Err : Type := mkErr { err_name : string; err_message : string }.

Definition RangeError (count : Z) : Err :=
  mkErr "RangeError" ("Invalid count value: " +:+ pretty count).

(** How a promise settles (or how a synchronous call ends). *)
Inductive Outcome (A : Type) : Type :=
| Resolved (a : A)
| Rejected (e : Err).
Arguments Resolved {A} a.
Arguments Rejected {A} e.

Section Monad.
Context {World : Type}.

(** The state threaded through every call. *)
Record St : Type := mkSt { world : World; stdout : list string }.

Definition M (A : Type) : Type := St → Outcome A * St.

Definition ret {A} (a : A) : M A := fun st => (Resolved a, st).

Definition throw {A} (e : Err) : M A := fun st => (Rejected e, st).

Definition bind {A B} (m : M A) (k : A → M B) : M B :=
  fun st =>
    match m st with
    | (Resolved a, st') => k a st'
    | (Rejected e, st') => (Rejected e, st')
    end.

(** A call into the outside world: it sees and changes only [world]. *)
Definition extern {A} (f : World → Outcome A * World) : M A :=
  fun st =>
    let '(o, w) := f (world st) in
    (o, mkSt w (stdout st)).

(** [process.stdout.write(s)] *)
Definition stdout_write (s : string) : M unit :=
  fun st => (Resolved tt, mkSt (world st) (stdout st ++ [s])).

Definition lift {A} (o : Outcome A) : M A := fun st => (o, st).
End Monad.
Arguments St : clear implicits.
Arguments M : clear implicits.

Declare Scope js_scope.
Delimit Scope js_scope with js.
Notation "x <- c ;; k" := (bind c (fun x => k))
  (at level 100, c at next level, right associativity) : js_scope.
Notation "c ;;; k" := (bind c (fun _ => k))
  (at level 100, right associativity) : js_scope.

End JS.
Import JS.
Open Scope js_scope.

(** ** source/output.ts *)

Module Output.

Definition ESC : string := String "027"%char "".
Definition NL : string := String "010"%char "".

Fixpoint repeat_string (s : string) (n : nat) : string :=
  match n with
  | O => ""
  | S n => s +:+ repeat_string s n
  end.

(** [s.repeat(count)].  [count] is [None] when the arithmetic that produced
    it involved [undefined] (the count is then [NaN], which [repeat] reads
    as 0); a negative count throws a [RangeError]. *)
Definition js_repeat (s : string) (count : option Z) : Outcome string :=
  match count with
  | None => Resolved ""
  | Some n =>
      if (n <? 0)%Z then Rejected (RangeError n)
      else Resolved (repeat_string s (Z.to_nat n))
  end.

(** The bytes of the heavy multiplication sign U+2716 followed by the
    variation selector U+FE0F, as [writeError] sends them to the terminal. *)
Definition CROSS : string :=
  String "226"%char (String "156"%char (String "150"%char
    (String "239"%char (String "184"%char (String "143"%char ""))))).

Section Sink.
Context {World : Type}.

(** [process.stdout.columns]: the width of the terminal, [undefined]
    ([None]) when standard output is not a terminal. *)
Variable columns : option Z.

Definition writeln (input : string) : M World unit :=
  stdout_write (input +:+ NL).

Definition writeHeader (header : string) : M World unit :=
  let width :=
    match columns with
    | None => None
    | Some c => Some (c - Z.of_nat (String.length header) - 2)%Z
    end in
  dashes <- lift (js_repeat "-" width) ;;
  stdout_write (ESC +:+ "[32m" +:+ NL +:+ "--" +:+ header +:+ dashes +:+ NL).
Definition writeError (input : string) : M World unit :=
  stdout_write (ESC +:+ "[31m" +:+ CROSS +:+ "  " +:+ input +:+ ESC +:+ "[0m").

Definition writehr : M World unit :=
  dashes <- lift (js_repeat "-" columns) ;;
  stdout_write (ESC +:+ "[36m" +:+ NL +:+ dashes +:+ NL).

End Sink.

End Output.
Import Output.

(** ** source/lamp.ts *)

Module Lamp.

(** [Usage]; [num] is the type of JavaScript numbers. *)
Record Usage (num : Type) : Type := mkUsage {
  promptTokens : num;
  completionTokens : num;
  totalTokens : num
}.
Arguments mkUsage {num} _ _ _.
Arguments promptTokens {num} _.
Arguments completionTokens {num} _.
Arguments totalTokens {num} _.

(** What the body of [lamp] holds in [result]:
    [{ text?: string; object?: U; usage: Usage }]. *)
Record LResult (num U : Type) : Type := mkLResult {
  text : option string;
  object : option U;
  usage : Usage num
}.
Arguments mkLResult {num U} _ _ _.
Arguments text {num U} _.
Arguments object {num U} _.
Arguments usage {num U} _.

(** The part of the answer of [generateText] that [getText] reads. *)
Record GenText (num : Type) : Type := mkGenText {
  gt_text : string;
  gt_usage : Usage num
}.
Arguments mkGenText {num} _ _.
Arguments gt_text {num} _.
Arguments gt_usage {num} _.

(** The part of the answer of [generateObject] that [getObject] reads. *)
Record GenObject (num U : Type) : Type := mkGenObject {
  go_object : U;
  go_usage : Usage num
}.
Arguments mkGenObject {num U} _ _.
Arguments go_object {num U} _.
Arguments go_usage {num U} _.

(** What an [LMPPromptFunction] returns. *)
Inductive PromptOut : Type :=
| Bare (prompt : string)
| Pair (system prompt : string).

(** A [string | undefined] stored as a property. *)
Definition of_opt_string (s : option string) : Val :=
  match s with
  | None => VUndef
  | Some s => VStr s
  end.

Section Invoker.
Context {num U World Args : Type}.

(** The external generation capability of package [ai]: each operation takes
    one options object and settles to an answer or a fault, possibly
    changing the outside world. *)
Variable generateText :
  gmap string Val → World → Outcome (GenText num) * World.
Variable generateObject :
  gmap string Val → World → Outcome (GenObject num U) * World.

(** [JSON.stringify] on a generated object: it returns a string, or
    [undefined] ([None]) for a value that has no JSON form, or it throws (a
    [TypeError] on a [BigInt] or on a cyclic object, or what a [toJSON]
    method throws). *)
Variable json_stringify : U → Outcome (option string).

Variable columns : option Z.

(** [JSON.stringify(result.object)], where [result.object] may be missing:
    [JSON.stringify(undefined)] is [undefined]. *)
Definition stringify_object (o : option U) : Outcome (option string) :=
  match o with
  | None => Resolved None
  | Some v => json_stringify v
  end.

(** The options object that [getObject] builds:
    [{ model, system, prompt, schema, ...settings }]. *)
Definition object_options (model : Val) (system : option string)
    (prompt : string) (schema : Val) (settings : gmap string Val)
    : gmap string Val :=
  spread
    (<["schema" := schema]>
       (<["prompt" := VStr prompt]>
          (<["system" := of_opt_string system]>
             (<["model" := model]> ∅))))
    settings.

Definition getObject (model : Val) (system : option string) (prompt : string)
    (schema : Val) (settings : gmap string Val) : M World (LResult num U) :=
  r <- extern (generateObject
                 (object_options model system prompt schema settings)) ;;
  ret (mkLResult None (Some (go_object r)) (go_usage r)).

(** The options object that [getText] builds:
    [{ model, system, prompt, ...settings }]. *)
Definition text_options (model : Val) (system : option string)
    (prompt : string) (settings : gmap string Val) : gmap string Val :=
  spread
    (<["prompt" := VStr prompt]>
       (<["system" := of_opt_string system]>
          (<["model" := model]> ∅)))
    settings.

Definition getText (model : Val) (system : option string) (prompt : string)
    (settings : gmap string Val) : M World (LResult num U) :=
  r <- extern (generateText (text_options model system prompt settings)) ;;
  ret (mkLResult (Some (gt_text r)) None (gt_usage r)).

Definition logMessages (system : option string) (user : string)
    (output : option string) : M World unit :=
  writeHeader columns "Prompt:" ;;;
  (if truthy_str system
   then writeln (ESC +:+ "[33msystem:" +:+ ESC +:+ "[0m " +:+ to_string system) ;;;
        writeln ""
   else ret tt) ;;;
  writeln (ESC +:+ "[33muser:" +:+ ESC +:+ "[0m " +:+ user) ;;;
  writeHeader columns "Output:" ;;;
  writeln (to_string output).

(** [const { system, prompt } = typeof prompts === "string"
       ? { system: undefined, prompt: prompts } : prompts] *)
Definition system_of (prompts : PromptOut) : option string :=
  match prompts with
  | Bare _ => None
  | Pair sys _ => Some sys
  end.

Definition prompt_of (prompts : PromptOut) : string :=
  match prompts with
  | Bare s => s
  | Pair _ p => p
  end.

(** [result.text ? result.text : JSON.stringify(result.object)] *)
Definition trace_output (result : LResult num U) : Outcome (option string) :=
  if truthy_str (text result) then Resolved (text result)
  else stringify_object (object result).

(** [lamp({ model, schema, ...settings }, promptFn)].  The argument of
    [logMessages] is evaluated before the call: [JSON.stringify] runs, and
    may throw, before anything is written. *)
Definition lamp (config : gmap string Val) (promptFn : Args → PromptOut)
    : Args → M World (LResult num U) :=
  let model := get config "model" in
  let schema := get config "schema" in
  let settings := rest config ["model"; "schema"] in
  fun args =>
    let prompts := promptFn args in
    let system := system_of prompts in
    let prompt := prompt_of prompts in
    result <- (if truthy schema
               then getObject model system prompt schema settings
               else getText model system prompt settings) ;;
    (if truthy (get settings "debug")
     then (output <- lift (trace_output result) ;;
           logMessages system prompt output)
     else ret tt) ;;;
    ret (mkLResult (text result) (object result) (usage result)).

End Invoker.

End Lamp.

(** ** source/evaluate.ts *)

Module Evaluate.
Import Lamp.

(** The arithmetic of JavaScript numbers that [describe] and [run] use. *)
Class JSNumber (num : Type) : Type := {
  num_of_nat : nat → num;          (* integer literals, [array.length] *)
  num_add : num → num → num;       (* [a + b] *)
  num_sub : num → num → num;       (* [a - b] *)
  num_div : num → num → num;       (* [a / b] *)
  num_sq : num → num;              (* [a ** 2] *)
  num_sqrt : num → num;            (* [Math.sqrt(a)] *)
  num_gt0 : num → bool;            (* [a > 0] *)
  num_undef : num                  (* what reading past the end of an array gives *)
}.

Record StatisticsResult (num : Type) : Type := mkStatisticsResult {
  average : num;
  median : num;
  std : num;
  max : num;
  min : num
}.
Arguments mkStatisticsResult {num} _ _ _ _ _.
Arguments average {num} _.
Arguments median {num} _.
Arguments std {num} _.
Arguments max {num} _.
Arguments min {num} _.

Definition EmptyInput : Err := mkErr "Error" "Input array is empty".

Section Describe.
Context {num : Type} `{JSNumber num}.

(** [arr[i]] *)
Definition at_index (arr : list num) (i : nat) : num :=
  nth i arr num_undef.

(** [Array.prototype.sort(comparefn)] is a stable sort: [b] moves in front of
    an earlier [a] only when [comparefn(a, b) > 0].  Here as a stable
    insertion sort, which returns what every conforming sort returns when
    the comparator orders the values of the array consistently; when it
    does not (a [NaN] among the values of [describe]) the language leaves
    the order to the implementation, and this is one of the orders. *)
Fixpoint sort_insert (comparefn : num → num → num) (a : num) (sorted : list num)
    : list num :=
  match sorted with
  | [] => [a]
  | b :: rest =>
      if num_gt0 (comparefn a b) then b :: sort_insert comparefn a rest
      else a :: b :: rest
  end.

Definition js_sort (comparefn : num → num → num) (arr : list num) : list num :=
  foldr (sort_insert comparefn) [] arr.

(** [arr.reduce((acc, val) => acc + val, 0)] *)
Definition sum_reduce (arr : list num) : num :=
  fold_left (fun acc val => num_add acc val) arr (num_of_nat 0).

Definition describe (numbers : list num) : Outcome (StatisticsResult num) :=
  if Nat.eqb (length numbers) 0 then Rejected EmptyInput
  else
    let sortedNumbers := js_sort (fun a b => num_sub a b) numbers in
    let sum := sum_reduce sortedNumbers in
    let average := num_div sum (num_of_nat (length sortedNumbers)) in
    let middle := Nat.div (length sortedNumbers) 2 in
    let median :=
      if Nat.eqb (Nat.modulo (length sortedNumbers) 2) 0
      then num_div (num_add (at_index sortedNumbers (middle - 1))
                            (at_index sortedNumbers middle))
                   (num_of_nat 2)
      else at_index sortedNumbers middle in
    let squaredDifferences :=
      map (fun n => num_sq (num_sub n average)) sortedNumbers in
    let variance :=
      num_div (sum_reduce squaredDifferences)
              (num_of_nat (length sortedNumbers)) in
    let std := num_sqrt variance in
    let max := at_index sortedNumbers (length sortedNumbers - 1) in
    let min := at_index sortedNumbers 0 in
    Resolved (mkStatisticsResult average median std max min).

End Describe.

Record TestCase (P : Type) : Type := mkTestCase {
  input : P;
  output : string
}.
Arguments mkTestCase {P} _ _.
Arguments input {P} _.
Arguments output {P} _.

(** One series of an [EvalResult]: [{ values } & StatisticsResult]. *)
Record Series (num : Type) : Type := mkSeries {
  values : list num;
  stats : StatisticsResult num
}.
Arguments mkSeries {num} _ _.
Arguments values {num} _.
Arguments stats {num} _.

Record EvalResult (num U P : Type) : Type := mkEvalResult {
  res_responses : list (LResult num U);
  res_testCases : list (TestCase P);
  res_scores : Series num;
  res_executionTimes : Series num;
  res_promptTokens : Series num;
  res_completionTokens : Series num
}.
Arguments mkEvalResult {num U P} _ _ _ _ _ _.
Arguments res_responses {num U P} _.
Arguments res_testCases {num U P} _.
Arguments res_scores {num U P} _.
Arguments res_executionTimes {num U P} _.
Arguments res_promptTokens {num U P} _.
Arguments res_completionTokens {num U P} _.

Section Evaluator.
Context {num U World P : Type} `{JSNumber num}.

(** [EvalConfig]: every field may be left out. *)
Record EvalConfig : Type := mkEvalConfig {
  opt_iterations : option Z;
  opt_testCases : option (list (TestCase P));
  opt_evaluator : option (TestCase P → LResult num U → M World num);
  opt_benchmark : option bool
}.

(** [Required<EvalConfig>], the type of [this.config]. *)
Record Config : Type := mkConfig {
  iterations : Z;
  testCases : list (TestCase P);
  evaluator : TestCase P → LResult num U → M World num;
  benchmark : bool
}.

(** [{ iterations: 1, testCases: [], evaluator: () => 0, benchmark: false,
       ...config }]: a field that [config] has overrides the default. *)
Definition Evaluator_new (config : EvalConfig) : Config :=
  mkConfig
    (default 1%Z (opt_iterations config))
    (default [] (opt_testCases config))
    (default (fun _ _ => ret (num_of_nat 0)) (opt_evaluator config))
    (default false (opt_benchmark config)).

(** [performance.now()] *)
Variable performance_now : World → num * World.

Definition now : M World num :=
  extern (fun w => let '(t, w') := performance_now w in (Resolved t, w')).

(** The arrays that [run] fills. *)
Record Acc : Type := mkAcc {
  scores : list num;
  responses : list (LResult num U);
  promptTokensAcc : list num;
  responseTokens : list num;
  executionTimes : list num
}.

Definition empty_acc : Acc := mkAcc [] [] [] [] [].

(** [for (const x of xs) body] over a state [B] *)
Fixpoint for_of {A B : Type} (xs : list A) (body : A → B → M World B) (b : B)
    : M World B :=
  match xs with
  | [] => ret b
  | x :: xs' => b' <- body x b ;; for_of xs' body b'
  end.

(** [for (let i = 0; i < n; i++) body]; for an integer [n] the body runs
    [Z.to_nat n] times (not at all when [n <= 0]). *)
Definition for_count {B : Type} (n : Z) (body : Z → B → M World B) (b : B)
    : M World B :=
  for_of (map Z.of_nat (seq 0 (Z.to_nat n))) body b.

(** The body of the inner loop: one trial. *)
Definition trial (config : Config) (fn : P → M World (LResult num U))
    (testCase : TestCase P) (acc : Acc) : M World Acc :=
  startTime <- now ;;
  result <- fn (input testCase) ;;
  endTime <- now ;;
  let acc1 :=
    mkAcc (scores acc)
          (responses acc ++ [result])
          (promptTokensAcc acc ++ [promptTokens (usage result)])
          (responseTokens acc ++ [completionTokens (usage result)])
          (if benchmark config
           then executionTimes acc ++ [num_sub endTime startTime]
           else executionTimes acc) in
  score <- evaluator config testCase result ;;
  ret (mkAcc (scores acc1 ++ [score]) (responses acc1) (promptTokensAcc acc1)
             (responseTokens acc1) (executionTimes acc1)).

(** The two nested loops of [run]. *)
Definition run_loops (config : Config) (fn : P → M World (LResult num U))
    (cases : list (TestCase P)) : M World Acc :=
  for_of cases
    (fun testCase acc =>
       for_count (iterations config) (fun _ acc => trial config fn testCase acc) acc)
    empty_acc.

Definition run (config : Config) (fn : P → M World (LResult num U))
    : M World (EvalResult num U P) :=
  let cases :=
    if Nat.ltb 0 (length (testCases config)) then testCases config else [] in
  acc <- run_loops config fn cases ;;
  s <- lift (describe (scores acc)) ;;
  e <- lift (describe (executionTimes acc)) ;;
  p <- lift (describe (promptTokensAcc acc)) ;;
  c <- lift (describe (responseTokens acc)) ;;
  ret (mkEvalResult (responses acc) cases
         (mkSeries (scores acc) s)
         (mkSeries (executionTimes acc) e)
         (mkSeries (promptTokensAcc acc) p)
         (mkSeries (responseTokens acc) c)).

(** [lampEval(config)] *)
Definition lampEval (config : EvalConfig) : Config := Evaluator_new config.

End Evaluator.

End Evaluate.

(** ** Doubles as numbers

    The numbers of JavaScript: IEEE-754 binary64 with the operations of the
    machine (round to nearest, ties to even), specified by the standard
    library's [FloatAxioms].  [a ** 2] is taken as the correctly rounded
    square; an array length is below 2^53 and converts exactly.  No read of
    [describe] goes past the end of the array, so [num_undef] is never
    used. *)

Module Doubles.
Import PrimFloat.

#[export] Instance float_JSNumber : Evaluate.JSNumber float := {|
  Evaluate.num_of_nat := fun n => of_uint63 (Uint63.of_Z (Z.of_nat n));
  Evaluate.num_add := add;
  Evaluate.num_sub := sub;
  Evaluate.num_div := div;
  Evaluate.num_sq := fun x => mul x x;
  Evaluate.num_sqrt := sqrt;
  Evaluate.num_gt0 := fun x => ltb zero x;
  Evaluate.num_undef := nan
|}.

End Doubles.

(** ** Vocabulary of the properties *)

Module Props.
Import Lamp Evaluate.

(** *** Observing the calls made to the generation capability

    A capability wrapped by [spied] behaves as the capability and also
    appends the options object of every call to a log kept next to the
    world. *)
Inductive Call : Type :=
| TextCall (options : gmap string Val)
| ObjectCall (options : gmap string Val).

Definition call_options (c : Call) : gmap string Val :=
  match c with
  | TextCall o => o
  | ObjectCall o => o
  end.

Definition spied {World A : Type} (tag : gmap string Val → Call)
    (f : gmap string Val → World → Outcome A * World)
    : gmap string Val → list Call * World → Outcome A * (list Call * World) :=
  fun options lw =>
    let '(o, w') := f options (snd lw) in
    (o, (fst lw ++ [tag options], w')).

(** The property names of [LMPConfig]: [model], the fields of
    [ModelSettings] and [schema]. *)
Definition LMPConfig_keys : list string :=
  ["model"; "maxTokens"; "temperature"; "topP"; "topK"; "presencePenalty";
   "frequencyPenalty"; "stopSequences"; "seed"; "maxRetries"; "abortSignal";
   "headers"; "debug"; "schema"].

(** A configuration object with no property outside its type. *)
Definition is_LMPConfig (config : gmap string Val) : Prop :=
  ∀ k, is_Some (config !! k) → k ∈ LMPConfig_keys.

(** The configuration carries a schema (an object). *)
Definition carries_schema (config : gmap string Val) : Prop :=
  ∃ ref, config !! "schema" = Some (VObj ref).

(** The configuration carries no schema. *)
Definition no_schema (config : gmap string Val) : Prop :=
  config !! "schema" = None ∨ config !! "schema" = Some VUndef.

(** Both headers of the trace ("Prompt:" and "Output:", 7 characters and 2
    dashes) fit the terminal, or standard output is not a terminal. *)
Definition header_fits (columns : option Z) : Prop :=
  match columns with
  | None => True
  | Some c => (9 ≤ c)%Z
  end.

(** What [writeHeader] writes when the header fits. *)
Definition header_text (columns : option Z) (header : string) : string :=
  ESC +:+ "[32m" +:+ NL +:+ "--" +:+ header +:+
  match columns with
  | None => ""
  | Some c => repeat_string "-" (Z.to_nat (c - Z.of_nat (String.length header) - 2))
  end +:+ NL.

(** What a whole trace writes when its headers fit. *)
Definition trace_lines (columns : option Z) (system : option string)
    (user : string) (output : option string) : list string :=
  [header_text columns "Prompt:"] ++
  (if truthy_str system
   then [(ESC +:+ "[33msystem:" +:+ ESC +:+ "[0m " +:+ to_string system) +:+ NL;
         "" +:+ NL]
   else []) ++
  [(ESC +:+ "[33muser:" +:+ ESC +:+ "[0m " +:+ user) +:+ NL;
   header_text columns "Output:";
   to_string output +:+ NL].

(** A result of text mode: [{ text, usage }]. *)
Definition text_mode {num U : Type} (r : LResult num U) : Prop :=
  is_Some (text r) ∧ object r = None.

(** A result of object mode: [{ object, usage }]. *)
Definition object_mode {num U : Type} (r : LResult num U) : Prop :=
  text r = None ∧ is_Some (object r).

(** What a call of a bound invoker does once the capability has settled
    with [r]: the optional trace, then the result. *)
Definition after_generation {num U World : Type}
    (json_stringify : U → Outcome (option string)) (columns : option Z)
    (config : gmap string Val) (prompts : PromptOut)
    (r : LResult num U) (st : St World) : Outcome (LResult num U) * St World :=
  if truthy (get config "debug")
  then match trace_output json_stringify r with
       | Resolved output =>
           match logMessages columns (system_of prompts) (prompt_of prompts)
                   output st with
           | (Resolved _, st') => (Resolved r, st')
           | (Rejected e, st') => (Rejected e, st')
           end
       | Rejected e => (Rejected e, st)
       end
  else (Resolved r, st).

(** The trace of a result can be written: [JSON.stringify], if it is
    called, does not throw, and the headers fit. *)
Definition trace_writable {num U : Type}
    (json_stringify : U → Outcome (option string)) (columns : option Z)
    (r : LResult num U) : Prop :=
  header_fits columns ∧ ∃ output, trace_output json_stringify r = Resolved output.

(** The one call that a bound invoker makes to the capability. *)
Definition forwarded_call (config : gmap string Val) (prompts : PromptOut)
    : Call :=
  if truthy (get config "schema")
  then ObjectCall
         (object_options (get config "model") (system_of prompts)
            (prompt_of prompts) (get config "schema")
            (rest config ["model"; "schema"]))
  else TextCall
         (text_options (get config "model") (system_of prompts)
            (prompt_of prompts) (rest config ["model"; "schema"])).

(** No call of the log hands the debug flag to the capability. *)
Definition debug_stripped (calls : list Call) : Prop :=
  ∀ c, c ∈ calls → call_options c !! "debug" = None.

(** *** Trials of an evaluation *)

(** What one trial yields: the response, the elapsed time, the score. *)
Record TrialRecord (num U : Type) : Type := mkTrialRecord {
  tr_response : LResult num U;
  tr_time : num;
  tr_score : num
}.
Arguments mkTrialRecord {num U} _ _ _.
Arguments tr_response {num U} _.
Arguments tr_time {num U} _.
Arguments tr_score {num U} _.

Section Trials.
Context {num U World P : Type} `{JSNumber num}.
Variable performance_now : World → num * World.
Variable config : Config (num := num) (U := U) (World := World) (P := P).
Variable fn : P → M World (LResult num U).

(** The invocation of a trial with the clock read before and after it. *)
Definition timed_invocation (testCase : TestCase P)
    : M World (num * LResult num U * num) :=
  startTime <- now performance_now ;;
  result <- fn (input testCase) ;;
  endTime <- now performance_now ;;
  ret (startTime, result, endTime).

(** One trial on a test case: invoke, time, score. *)
Definition one_trial (testCase : TestCase P) : M World (TrialRecord num U) :=
  t <- timed_invocation testCase ;;
  score <- evaluator config testCase (snd (fst t)) ;;
  ret (mkTrialRecord (snd (fst t)) (num_sub (snd t) (fst (fst t))) score).

(** The arrays of [run] after one more trial. *)
Definition record_trial (acc : Acc) (tr : TrialRecord num U)
    : Acc (num := num) (U := U) :=
  mkAcc (scores acc ++ [tr_score tr])
        (responses acc ++ [tr_response tr])
        (promptTokensAcc acc ++ [promptTokens (usage (tr_response tr))])
        (responseTokens acc ++ [completionTokens (usage (tr_response tr))])
        (if benchmark config then executionTimes acc ++ [tr_time tr]
         else executionTimes acc).

(** Trials run one after the other from a state, each resolving. *)
Inductive trials_chain
    : list (TestCase P * nat) → St World → list (TrialRecord num U) →
      St World → Prop :=
| chain_done (st : St World) : trials_chain [] st [] st
| chain_step (testCase : TestCase P) (i : nat) (later : list (TestCase P * nat))
    (st st1 st' : St World) (tr : TrialRecord num U)
    (log : list (TrialRecord num U)) :
    one_trial testCase st = (Resolved tr, st1) →
    trials_chain later st1 log st' →
    trials_chain ((testCase, i) :: later) st (tr :: log) st'.

End Trials.

(** The order of the trials: test cases in input order and, for each, the
    iterations [0 .. m-1] in ascending order. *)
Definition schedule {P : Type} (cases : list (TestCase P)) (m : nat)
    : list (TestCase P * nat) :=
  flat_map (fun testCase => map (fun i => (testCase, i)) (seq 0 m)) cases.

(** *** The order of [describe] *)

Section Order.
Context {num : Type} `{JSNumber num}.

(** The comparator [(a, b) => a - b] puts [a] after [b]: [a - b > 0]. *)
Definition sorts_after (a b : num) : bool := num_gt0 (num_sub a b).

(** A sequence in the order of the comparator: no element sorts after a
    later one. *)
Definition ascending (l : list num) : Prop :=
  StronglySorted (fun a b => sorts_after a b = false) l.

(** The comparator orders the values that satisfy [ok] consistently: as a
    strict weak order. *)
Definition consistent_comparator (ok : num → Prop) : Prop :=
  (∀ a b, ok a → ok b → sorts_after a b = true → sorts_after b a = false) ∧
  (∀ a b c, ok a → ok b → ok c →
     sorts_after a b = false → sorts_after b c = false →
     sorts_after a c = false).

(** The median of a sorted sequence: the central element for an odd length,
    the mean of the two central elements for an even length. *)
Definition median_of_sorted (l : list num) : num :=
  if Nat.even (length l)
  then num_div (num_add (nth (length l / 2 - 1) l num_undef)
                        (nth (length l / 2) l num_undef))
               (num_of_nat 2)
  else nth (length l / 2) l num_undef.

End Order.

End Props.

(** ** A concrete setting

    The world is the time of a clock that advances by 1.5 ms at every
    reading; the backend always gives the same answer, or always fails; the
    generated objects are strings, serialized between quotes. *)

Module Samples.
Import PrimFloat Lamp Evaluate Props Doubles.

Definition clock_start : float := 0%float.

Definition ticking_clock : float → float * float :=
  fun w => (w, add w 1.5%float).

Definition sample_usage : Usage float := mkUsage 12%float 5%float 17%float.

Definition fixed_text (answer : string)
    : gmap string Val → float → Outcome (GenText float) * float :=
  fun _ w => (Resolved (mkGenText answer sample_usage), w).

Definition fixed_object (answer : string)
    : gmap string Val → float → Outcome (GenObject float string) * float :=
  fun _ w => (Resolved (mkGenObject answer sample_usage), w).

Definition rate_limited : Err := mkErr "APICallError" "rate limit exceeded".

Definition failing_text
    : gmap string Val → float → Outcome (GenText float) * float :=
  fun _ w => (Rejected rate_limited, w).

Definition failing_object
    : gmap string Val → float → Outcome (GenObject float string) * float :=
  fun _ w => (Rejected rate_limited, w).

Definition quote_string (s : string) : Outcome (option string) :=
  Resolved (Some (String "034"%char s +:+ String "034"%char "")).

Definition not_serializable : Err :=
  mkErr "TypeError" "Do not know how to serialize a BigInt".

(** [JSON.stringify] on objects that it cannot serialize. *)
Definition throwing_stringify (s : string) : Outcome (option string) :=
  Rejected not_serializable.

Definition plain_config : gmap string Val :=
  <["model" := VStr "anthropic:haiku"]> (<["maxTokens" := VNum 256]> ∅).

(** A configuration object that also has a [system] and a [prompt]
    property. *)
Definition overriding_config : gmap string Val :=
  <["system" := VStr "Be verbose."]>
    (<["prompt" := VStr "Name a green fruit."]> plain_config).

Definition debug_config : gmap string Val :=
  <["debug" := VBool true]> plain_config.

Definition schema_config : gmap string Val :=
  <["schema" := VObj 1%nat]> plain_config.

Definition fruit_prompt (color : string) : PromptOut :=
  Bare ("Generate 3 kinds of " +:+ color +:+
        " fruit as a comma-separated list.").

Definition brief_prompt (color : string) : PromptOut :=
  Pair "Be brief." ("Name a " +:+ color +:+ " fruit.").

Definition start_state : St float := mkSt clock_start [].

Definition spy_start : St (list Call * float) := mkSt ([], clock_start) [].

(** An invoker that answers with its input. *)
Definition echo_invoker (p : string) : M float (LResult float string) :=
  ret (mkLResult (Some p) None sample_usage).

Definition red_fruit : TestCase string := mkTestCase "red" "".

(** The scenario of the specification: one test case, two iterations, an
    evaluator that always returns 1, benchmarking enabled. *)
Definition red_fruit_eval
    : Config (num := float) (U := string) (World := float) (P := string) :=
  lampEval (mkEvalConfig (Some 2%Z) (Some [red_fruit])
              (Some (fun _ _ => ret 1%float)) (Some true)).

(** The same with no test case given. *)
Definition no_cases_eval
    : Config (num := float) (U := string) (World := float) (P := string) :=
  lampEval (mkEvalConfig (Some 2%Z) None (Some (fun _ _ => ret 1%float))
              (Some true)).

(** The same with benchmarking left out. *)
Definition no_benchmark_eval
    : Config (num := float) (U := string) (World := float) (P := string) :=
  lampEval (mkEvalConfig (Some 2%Z) (Some [red_fruit])
              (Some (fun _ _ => ret 1%float)) None).

(** A configuration that asks for no iteration at all. *)
Definition zero_iterations_config
    : EvalConfig (num := float) (U := string) (World := float) (P := string) :=
  mkEvalConfig (Some 0%Z) (Some [red_fruit]) (Some (fun _ _ => ret 1%float))
    (Some true).

Definition bad_score : Err := mkErr "TypeError" "response.text is undefined".

(** An evaluation whose evaluator throws. *)
Definition throwing_eval
    : Config (num := float) (U := string) (World := float) (P := string) :=
  lampEval (mkEvalConfig (Some 2%Z) (Some [red_fruit])
              (Some (fun _ _ => throw bad_score)) (Some true)).

(** The first invocation of [echo_invoker] on [red_fruit] from
    [start_state]: the clock read at 0 and at 1.5, and the state after. *)
Definition first_timing : float * LResult float string * float :=
  (0%float, mkLResult (Some "red") None sample_usage, 1.5%float).

Definition after_first_invocation : St float := mkSt 3%float [].

End Samples.

(** ** Further vocabulary *)

Module MoreProps.
Import Lamp Evaluate Props Doubles.

(** The clock of a world that also keeps the log of capability calls: the
    clock is read, the log is left alone. *)
Definition logged_clock {num World : Type} (performance_now : World → num * World)
    : list Call * World → num * (list Call * World) :=
  fun lw =>
    let '(t, w') := performance_now (snd lw) in (t, (fst lw, w')).

(** The calls that the trials of a schedule make to the capability, one for
    each trial, with the prompt built from the input of its test case. *)
Definition scheduled_calls {P : Type} (lconfig : gmap string Val)
    (promptFn : P → PromptOut) (sched : list (TestCase P * nat)) : list Call :=
  map (fun ti => forwarded_call lconfig (promptFn (input (fst ti)))) sched.

(** The visible line of a header: two dashes, the header, the filling. *)
Definition header_line (columns : Z) (header : string) : string :=
  "--" +:+ header +:+
  repeat_string "-" (Z.to_nat (columns - Z.of_nat (String.length header) - 2)).

(** The red-fruit evaluation in a world that logs the capability calls, with
    the default evaluator. *)
Definition logged_fruit_eval
    : Config (num := PrimFloat.float) (U := string)
        (World := list Call * PrimFloat.float) (P := string) :=
  lampEval (mkEvalConfig (Some 2%Z) (Some [Samples.red_fruit]) None (Some true)).

(** A configuration that leaves the evaluator out. *)
Definition no_evaluator_config
    : EvalConfig (num := PrimFloat.float) (U := string)
        (World := PrimFloat.float) (P := string) :=
  mkEvalConfig (Some 2%Z) (Some [Samples.red_fruit]) None (Some true).

(** Two prompt functions: an empty system message, and none. *)
Definition empty_system_prompt (color : string) : PromptOut :=
  Pair "" ("Name a " +:+ color +:+ " fruit.").

Definition bare_prompt (color : string) : PromptOut :=
  Bare ("Name a " +:+ color +:+ " fruit.").

(** The logged world after the clock was read once. *)
Definition logged_after_reading : St (list Call * PrimFloat.float) :=
  mkSt ([], snd (Samples.ticking_clock Samples.clock_start)) [].

Definition logged_start : St (list Call * PrimFloat.float) :=
  mkSt ([], Samples.clock_start) [].

End MoreProps.

(** ** Vocabulary for arrays of doubles *)

Module DoubleOrder.
Import PrimFloat SpecFloat.

(** No element is [NaN]. *)
Definition no_nan (l : list float) : Prop :=
  Forall (fun x => is_nan x = false) l.

(** [l] is a value-sorted copy of [s]: the same elements, in the order [<=]
    of the doubles. *)
Definition sorted_copy (l s : list float) : Prop :=
  Permutation l s ∧ StronglySorted (fun a b => leb a b = true) l.



(** A key that orders the doubles other than [NaN] as [<] does:
    [-Infinity], the negative numbers by exponent and mantissa, the two
    zeros, the positive numbers, [+Infinity]. *)
Definition SFkey (f : spec_float) : Z * Z * Z :=
  match f with
  | S754_nan => (0, 0, 0)
  | S754_zero _ => (0, 0, 0)
  | S754_infinity false => (2, 0, 0)
  | S754_infinity true => (-2, 0, 0)
  | S754_finite false m e => (1, e, Zpos m)
  | S754_finite true m e => (-1, - e, Zneg m)
  end%Z.

(** The lexicographic order of the keys. *)
Definition key_lt (a b : Z * Z * Z) : Prop :=
  (a.1.1 < b.1.1 ∨
   (a.1.1 = b.1.1 ∧ (a.1.2 < b.1.2 ∨ (a.1.2 = b.1.2 ∧ a.2 < b.2))))%Z.

End DoubleOrder.
Import Lamp Evaluate Props Doubles Samples MoreProps DoubleOrder.

(** * Properties of [output.ts] and [lamp.ts] *)

Section LampFacts.
Context {num U World Args : Type}.
Variable generateText :
  gmap string Val → World → Outcome (GenText num) * World.
Variable generateObject :
  gmap string Val → World → Outcome (GenObject num U) * World.
Variable json_stringify : U → Outcome (option string).
Variable columns : option Z.

Abbreviation lamp' := (lamp generateText generateObject json_stringify columns).
Abbreviation after_generation' := (after_generation json_stringify columns).

Lemma rest_model_schema (config : gmap string Val) (k : string) :
  rest config ["model"; "schema"] !! k =
  if decide (k = "model" ∨ k = "schema") then None else config !! k.
Proof.
  unfold rest; simpl.
  case_decide as Hk.
  - destruct Hk as [-> | ->].
    + by rewrite lookup_delete_eq.
    + rewrite lookup_delete_ne; [|done]. by rewrite lookup_delete_eq.
  - rewrite lookup_delete_ne; [|intros <-; tauto].
    rewrite lookup_delete_ne; [done|intros <-; tauto].
Qed.

Lemma get_rest_debug (config : gmap string Val) :
  get (rest config ["model"; "schema"]) "debug" = get config "debug".
Proof. unfold get. by rewrite rest_model_schema. Qed.

Lemma header_fits_cases :
  header_fits columns ∨ ∃ c, columns = Some c ∧ (c < 9)%Z.
Proof.
  destruct columns as [c|]; [|by left].
  destruct (Z.lt_ge_cases c 9); [right; eauto|by left].
Qed.

Lemma writeHeader_fits (header : string) (st : St World) :
  match columns with
  | None => True
  | Some c => (Z.of_nat (String.length header) + 2 ≤ c)%Z
  end →
  writeHeader columns header st =
  (Resolved tt, mkSt (world st) (stdout st ++ [header_text columns header])).
Proof.
  intros Hfit. unfold writeHeader, header_text, bind, lift, js_repeat.
  destruct columns as [c|]; [|done].
  destruct (Z.ltb_spec (c - Z.of_nat (String.length header) - 2) 0); [lia|done].
Qed.

Lemma writeHeader_narrow (header : string) (c : Z) (st : St World) :
  columns = Some c →
  (c < Z.of_nat (String.length header) + 2)%Z →
  writeHeader columns header st =
  (Rejected (RangeError (c - Z.of_nat (String.length header) - 2)), st).
Proof.
  intros -> Hc. unfold writeHeader, bind, lift, js_repeat.
  destruct (Z.ltb_spec (c - Z.of_nat (String.length header) - 2) 0); [done|lia].
Qed.

Lemma logMessages_fits (system : option string) (user : string)
    (output : option string) (st : St World) :
  header_fits columns →
  logMessages columns system user output st =
  (Resolved tt,
   mkSt (world st) (stdout st ++ trace_lines columns system user output)).
Proof.
  intros Hfit. unfold logMessages, bind.
  assert (Hh : ∀ h, String.length h = 7 →
            match columns with
            | None => True
            | Some c => (Z.of_nat (String.length h) + 2 ≤ c)%Z
            end).
  { intros h ->. unfold header_fits in Hfit. destruct columns; [lia|done]. }
  rewrite writeHeader_fits by (by apply Hh).
  unfold trace_lines.
  unfold writeln, stdout_write, ret.
  destruct (truthy_str system); cbn [world stdout];
    rewrite writeHeader_fits by (by apply Hh); cbn [world stdout];
    rewrite <- !app_assoc; reflexivity.
Qed.

Lemma logMessages_narrow (system : option string) (user : string)
    (output : option string) (c : Z) (st : St World) :
  columns = Some c → (c < 9)%Z →
  logMessages columns system user output st = (Rejected (RangeError (c - 9)), st).
Proof.
  intros Hc Hlt. unfold logMessages, bind.
  rewrite (writeHeader_narrow "Prompt:" c) by (simpl; done || lia).
  simpl String.length. do 3 f_equal. lia.
Qed.

Lemma lamp_text_call (config : gmap string Val) (promptFn : Args → PromptOut)
    (args : Args) (st : St World) :
  truthy (get config "schema") = false →
  lamp' config promptFn args st =
  match generateText
          (text_options (get config "model") (system_of (promptFn args))
             (prompt_of (promptFn args)) (rest config ["model"; "schema"]))
          (world st) with
  | (Resolved g, w') =>
      after_generation' config (promptFn args)
        (mkLResult (Some (gt_text g)) None (gt_usage g))
        (mkSt w' (stdout st))
  | (Rejected e, w') => (Rejected e, mkSt w' (stdout st))
  end.
Proof.
  intros Hs. unfold lamp, after_generation, getText, bind, extern, ret, lift.
  rewrite Hs, get_rest_debug.
  destruct (generateText _ _) as [[g|e] w']; [|done].
  destruct (truthy (get config "debug")); [|done].
  cbn [text object usage].
  destruct (trace_output _ _) as [output|e]; [|done].
  by destruct (logMessages _ _ _ _ _) as [[[]|e] st'].
Qed.

Lemma lamp_object_call (config : gmap string Val) (promptFn : Args → PromptOut)
    (args : Args) (st : St World) :
  truthy (get config "schema") = true →
  lamp' config promptFn args st =
  match generateObject
          (object_options (get config "model") (system_of (promptFn args))
             (prompt_of (promptFn args)) (get config "schema")
             (rest config ["model"; "schema"]))
          (world st) with
  | (Resolved g, w') =>
      after_generation' config (promptFn args)
        (mkLResult None (Some (go_object g)) (go_usage g))
        (mkSt w' (stdout st))
  | (Rejected e, w') => (Rejected e, mkSt w' (stdout st))
  end.
Proof.
  intros Hs. unfold lamp, after_generation, getObject, bind, extern, ret, lift.
  rewrite Hs, get_rest_debug.
  destruct (generateObject _ _) as [[g|e] w']; [|done].
  destruct (truthy (get config "debug")); [|done].
  cbn [text object usage].
  destruct (trace_output _ _) as [output|e]; [|done].
  by destruct (logMessages _ _ _ _ _) as [[[]|e] st'].
Qed.

(** The trace never touches the world and, when it goes through, never the
    result either. *)
Lemma after_generation_resolved (config : gmap string Val) (prompts : PromptOut)
    (r r' : LResult num U) (st st' : St World) :
  after_generation' config prompts r st = (Resolved r', st') →
  r' = r ∧ world st' = world st.
Proof.
  unfold after_generation. destruct (truthy (get config "debug")).
  - destruct (trace_output _ _) as [output|e0]; [|done].
    destruct (logMessages _ _ _ _ _) as [[[]|e] st1] eqn:Hlog; [|done].
    intros [= <- <-]. split; [done|].
    destruct header_fits_cases as [Hfit|(c & Hc & Hlt)].
    + rewrite logMessages_fits in Hlog by done. by injection Hlog as <-.
    + by rewrite (logMessages_narrow _ _ _ c) in Hlog.
  - by intros [= <- <-].
Qed.

Lemma after_generation_fits (config : gmap string Val) (prompts : PromptOut)
    (r : LResult num U) (st : St World) :
  truthy (get config "debug") = false ∨
    trace_writable json_stringify columns r →
  ∃ out, after_generation' config prompts r st = (Resolved r, mkSt (world st) out).
Proof.
  intros Hok. unfold after_generation.
  destruct (truthy (get config "debug")).
  - destruct Hok as [|[Hfit [output Hout]]]; [done|].
    rewrite Hout, logMessages_fits by done. eauto.
  - exists (stdout st). by destruct st.
Qed.

(** A call whose generation succeeded and that was rejected all the same
    had the debug flag set, and either [JSON.stringify] threw or the
    headers of the trace did not fit; nothing was written. *)
Lemma after_generation_rejected (config : gmap string Val)
    (prompts : PromptOut) (r : LResult num U) (st st' : St World) (e : Err) :
  after_generation' config prompts r st = (Rejected e, st') →
  truthy (get config "debug") = true ∧ st' = st ∧
  (trace_output json_stringify r = Rejected e ∨
   ∃ c, columns = Some c ∧ (c < 9)%Z ∧ e = RangeError (c - 9)).
Proof.
  unfold after_generation. destruct (truthy (get config "debug")); [|done].
  destruct (trace_output _ _) as [output|e0].
  - destruct header_fits_cases as [Hfit|(c & Hc & Hlt)].
    + by rewrite logMessages_fits.
    + rewrite (logMessages_narrow _ _ _ c) by done.
      intros [= <- <-]. split; [done|]. split; [done|]. right. eauto.
  - intros [= <- <-]. split; [done|]. split; [done|]. by left.
Qed.

(** In text mode the Output section shows the text unless it is the empty
    string: [JSON.stringify] is then called on the missing [object], and
    returns [undefined]. *)
Lemma trace_output_text (t : string) (u : Usage num) :
  trace_output json_stringify (mkLResult (U := U) (Some t) None u) =
  Resolved (if String.eqb t "" then None else Some t).
Proof. unfold trace_output; simpl. by destruct (String.eqb t ""). Qed.

(** In object mode [text] is missing, and the Output section shows
    [JSON.stringify] of the object. *)
Lemma trace_output_object (v : U) (u : Usage num) :
  trace_output json_stringify (mkLResult None (Some v) u) = json_stringify v.
Proof. reflexivity. Qed.

(** The trace of a result of text mode can always be computed. *)
Lemma text_trace_writable (t : string) (u : Usage num) :
  header_fits columns →
  trace_writable json_stringify columns (mkLResult (U := U) (Some t) None u).
Proof. intros Hfit. split; [done|]. rewrite trace_output_text. eauto. Qed.

Lemma trace_lines_last (system : option string) (user : string)
    (output : option string) (before : list string) :
  last (before ++ trace_lines columns system user output) =
  Some (to_string output +:+ NL).
Proof.
  unfold trace_lines. rewrite !app_assoc.
  change [?a; ?b; ?c] with ([a; b] ++ [c]).
  rewrite app_assoc. apply last_snoc.
Qed.

Lemma carries_schema_truthy (config : gmap string Val) :
  carries_schema config → truthy (get config "schema") = true.
Proof. intros [ref Href]. unfold get. by rewrite Href. Qed.

Lemma no_schema_falsy (config : gmap string Val) :
  no_schema config → truthy (get config "schema") = false.
Proof. intros [Hn|Hn]; unfold get; by rewrite Hn. Qed.

End LampFacts.

Section OptionsFacts.

Lemma spread_lookup_src (dst src : gmap string Val) (k : string) (v : Val) :
  src !! k = Some v → spread dst src !! k = Some v.
Proof. intros Hk. unfold spread. by apply lookup_union_Some_l. Qed.

Lemma spread_lookup_dst (dst src : gmap string Val) (k : string) :
  src !! k = None → spread dst src !! k = dst !! k.
Proof. intros Hk. unfold spread. by apply lookup_union_r. Qed.

Lemma rest_lookup_kept (config : gmap string Val) (k : string) :
  k ≠ "model" → k ≠ "schema" →
  rest config ["model"; "schema"] !! k = config !! k.
Proof.
  intros Hm Hs. unfold rest; simpl.
  rewrite lookup_delete_ne; [|done]. by rewrite lookup_delete_ne.
Qed.

Lemma rest_lookup_model (config : gmap string Val) :
  rest config ["model"; "schema"] !! "model" = None.
Proof. unfold rest; simpl. by rewrite lookup_delete_eq. Qed.

Lemma rest_lookup_schema (config : gmap string Val) :
  rest config ["model"; "schema"] !! "schema" = None.
Proof.
  unfold rest; simpl. rewrite lookup_delete_ne; [|done].
  by rewrite lookup_delete_eq.
Qed.

(** Every setting of the configuration reaches the options object. *)
Lemma forwarded_call_setting (config : gmap string Val) (prompts : PromptOut)
    (k : string) (v : Val) :
  k ≠ "model" → k ≠ "schema" → config !! k = Some v →
  call_options (forwarded_call config prompts) !! k = Some v.
Proof.
  intros Hm Hs Hk. unfold forwarded_call, object_options, text_options.
  destruct (truthy (get config "schema")); cbn [call_options];
    apply spread_lookup_src; by rewrite rest_lookup_kept.
Qed.

(** A property that is neither a setting nor one of the named arguments is
    not in the options object. *)
Lemma forwarded_call_absent (config : gmap string Val) (prompts : PromptOut)
    (k : string) :
  k ≠ "model" → k ≠ "schema" → k ≠ "system" → k ≠ "prompt" →
  config !! k = None →
  call_options (forwarded_call config prompts) !! k = None.
Proof.
  intros Hm Hs Hy Hp Hk. unfold forwarded_call, object_options, text_options.
  destruct (truthy (get config "schema")); cbn [call_options];
    (rewrite spread_lookup_dst by (by rewrite rest_lookup_kept));
    by rewrite !lookup_insert_ne.
Qed.

Lemma forwarded_call_schema (config : gmap string Val) (prompts : PromptOut) :
  call_options (forwarded_call config prompts) !! "schema" =
  if truthy (get config "schema") then Some (get config "schema") else None.
Proof.
  unfold forwarded_call, object_options, text_options.
  destruct (truthy (get config "schema")); cbn [call_options];
    rewrite spread_lookup_dst by apply rest_lookup_schema.
  - by rewrite lookup_insert_eq.
  - by rewrite !lookup_insert_ne.
Qed.

Lemma forwarded_call_model (config : gmap string Val) (prompts : PromptOut) :
  call_options (forwarded_call config prompts) !! "model" =
  Some (get config "model").
Proof.
  unfold forwarded_call, object_options, text_options.
  destruct (truthy (get config "schema")); cbn [call_options];
    rewrite spread_lookup_dst by apply rest_lookup_model.
  - rewrite !lookup_insert_ne by done. by rewrite lookup_insert_eq.
  - rewrite !lookup_insert_ne by done. by rewrite lookup_insert_eq.
Qed.

Lemma forwarded_call_prompt (config : gmap string Val) (prompts : PromptOut) :
  config !! "prompt" = None →
  call_options (forwarded_call config prompts) !! "prompt" =
  Some (VStr (prompt_of prompts)).
Proof.
  intros Hk. unfold forwarded_call, object_options, text_options.
  destruct (truthy (get config "schema")); cbn [call_options];
    (rewrite spread_lookup_dst by (by rewrite rest_lookup_kept)).
  - rewrite lookup_insert_ne by done. by rewrite lookup_insert_eq.
  - by rewrite lookup_insert_eq.
Qed.

Lemma forwarded_call_system (config : gmap string Val) (prompts : PromptOut) :
  config !! "system" = None →
  call_options (forwarded_call config prompts) !! "system" =
  Some (of_opt_string (system_of prompts)).
Proof.
  intros Hk. unfold forwarded_call, object_options, text_options.
  destruct (truthy (get config "schema")); cbn [call_options];
    (rewrite spread_lookup_dst by (by rewrite rest_lookup_kept)).
  - rewrite !lookup_insert_ne by done. by rewrite lookup_insert_eq.
  - rewrite !lookup_insert_ne by done. by rewrite lookup_insert_eq.
Qed.

(** [system] and [prompt] are not properties of a configuration. *)
Lemma is_LMPConfig_named_arguments (config : gmap string Val) :
  is_LMPConfig config →
  config !! "system" = None ∧ config !! "prompt" = None.
Proof.
  intros Hty. split.
  - destruct (config !! "system") eqn:E; [|done].
    assert (Hin : "system" ∈ LMPConfig_keys) by (apply Hty; eauto).
    exfalso. revert Hin. apply (bool_decide_eq_false_1 _). by vm_compute.
  - destruct (config !! "prompt") eqn:E; [|done].
    assert (Hin : "prompt" ∈ LMPConfig_keys) by (apply Hty; eauto).
    exfalso. revert Hin. apply (bool_decide_eq_false_1 _). by vm_compute.
Qed.

End OptionsFacts.

Section LampClaims.
Context {num U World Args : Type}.
Variable generateText :
  gmap string Val → World → Outcome (GenText num) * World.
Variable generateObject :
  gmap string Val → World → Outcome (GenObject num U) * World.
Variable json_stringify : U → Outcome (option string).
Variable columns : option Z.

Abbreviation lamp' :=
  (lamp (Args := Args) generateText generateObject json_stringify columns).
Abbreviation spy_lamp :=
  (lamp (Args := Args) (spied TextCall generateText)
     (spied ObjectCall generateObject) json_stringify columns).

Lemma after_generation_world {W : Type} (config : gmap string Val)
    (prompts : PromptOut) (r : LResult num U) (st : St W) :
  world (snd (after_generation json_stringify columns config prompts r st)) =
  world st.
Proof.
  unfold after_generation. destruct (truthy (get config "debug")); [|done].
  destruct (trace_output _ _) as [output|e]; [|done].
  destruct (header_fits_cases columns) as [Hfit|(c & Hc & Hlt)].
  - by rewrite logMessages_fits.
  - by rewrite (logMessages_narrow _ _ _ _ c).
Qed.

(** A call of a bound invoker makes exactly one call to the capability, with
    the options object [forwarded_call]. *)
Lemma spy_lamp_log (config : gmap string Val) (promptFn : Args → PromptOut)
    (args : Args) (log : list Call) (w : World) (out : list string) :
  fst (world (snd (spy_lamp config promptFn args (mkSt (log, w) out)))) =
  log ++ [forwarded_call config (promptFn args)].
Proof.
  unfold forwarded_call.
  destruct (truthy (get config "schema")) eqn:Hs.
  - rewrite lamp_object_call by done. unfold spied. cbn [world snd].
    destruct (generateObject _ _) as [[g|e] w']; [|done].
    by rewrite after_generation_world.
  - rewrite lamp_text_call by done. unfold spied. cbn [world snd].
    destruct (generateText _ _) as [[g|e] w']; [|done].
    by rewrite after_generation_world.
Qed.

(** C1, as amended: every call of a bound invoker makes one call to the
    generation capability ([generateObject] when the schema is truthy,
    [generateText] otherwise), and the options object of that call holds every
    property of the configuration other than [model] and [schema] with its
    value -- the debug flag included, which is forwarded like any other
    setting.  The schema is taken out of the settings and reaches the
    capability only in object mode, as the schema argument. *)
Theorem settings_forwarded_with_debug (config : gmap string Val)
    (promptFn : Args → PromptOut) (args : Args)
    (log : list Call) (w : World) (out : list string) :
  ∃ call,
    fst (world (snd (spy_lamp config promptFn args (mkSt (log, w) out)))) =
      log ++ [call] ∧
    match call with
    | TextCall _ => truthy (get config "schema") = false
    | ObjectCall _ => truthy (get config "schema") = true
    end ∧
    (∀ k v, k ≠ "model" → k ≠ "schema" → config !! k = Some v →
            call_options call !! k = Some v) ∧
    call_options call !! "debug" = config !! "debug" ∧
    call_options call !! "model" = Some (get config "model") ∧
    call_options call !! "schema" =
      (if truthy (get config "schema") then Some (get config "schema")
       else None).
Proof.
  exists (forwarded_call config (promptFn args)).
  split; [apply spy_lamp_log|].
  split; [unfold forwarded_call; by destruct (truthy (get config "schema"))|].
  split; [intros k v; apply forwarded_call_setting|].
  split; [|split; [apply forwarded_call_model|apply forwarded_call_schema]].
  destruct (config !! "debug") as [v|] eqn:Hd.
  - by apply forwarded_call_setting.
  - by apply forwarded_call_absent.
Qed.

(** C6, as amended: every call of a bound invoker makes one call to the
    capability, whose [system] and [prompt] are those of the configuration
    when it has a property of that name (the settings are spread over the
    named arguments) and those returned by the prompt function otherwise.
    So, for a configuration with no property named [system] or [prompt]:
    when the prompt function returns a pair, the capability is called with
    exactly that system message and prompt; when it returns a bare string,
    with that string as the prompt and [undefined] as the system message. *)
Theorem prompt_and_system_forwarded (config : gmap string Val)
    (promptFn : Args → PromptOut) (args : Args)
    (log : list Call) (w : World) (out : list string) :
  ∃ call,
    fst (world (snd (spy_lamp config promptFn args (mkSt (log, w) out)))) =
      log ++ [call] ∧
    call_options call !! "system" =
      Some (default (of_opt_string (system_of (promptFn args)))
              (config !! "system")) ∧
    call_options call !! "prompt" =
      Some (default (VStr (prompt_of (promptFn args))) (config !! "prompt")) ∧
    (config !! "system" = None → config !! "prompt" = None →
     match promptFn args with
     | Pair sys p =>
         call_options call !! "system" = Some (VStr sys) ∧
         call_options call !! "prompt" = Some (VStr p)
     | Bare s =>
         get (call_options call) "system" = VUndef ∧
         call_options call !! "prompt" = Some (VStr s)
     end).
Proof.
  exists (forwarded_call config (promptFn args)).
  split; [apply spy_lamp_log|].
  assert (Hsys : call_options (forwarded_call config (promptFn args)) !! "system" =
                 Some (default (of_opt_string (system_of (promptFn args)))
                         (config !! "system"))).
  { destruct (config !! "system") as [v|] eqn:Hk.
    - by apply forwarded_call_setting.
    - by apply forwarded_call_system. }
  assert (Hpr : call_options (forwarded_call config (promptFn args)) !! "prompt" =
                Some (default (VStr (prompt_of (promptFn args)))
                        (config !! "prompt"))).
  { destruct (config !! "prompt") as [v|] eqn:Hk.
    - by apply forwarded_call_setting.
    - by apply forwarded_call_prompt. }
  split; [exact Hsys|]. split; [exact Hpr|].
  intros Hs Hp. rewrite Hs in Hsys. rewrite Hp in Hpr. simpl in Hsys, Hpr.
  destruct (promptFn args) as [s|sys p]; simpl in *.
  - split; [|done]. unfold get. by rewrite Hsys.
  - done.
Qed.

(** C2: the schema of the configuration fixes the shape of every result.
    With a schema, a call that settles with a value settles with
    [{ object, usage }] and does settle so whenever the capability answers
    and the trace (if any) can be written; without a schema, the same with
    [{ text, usage }].  No result has both [text] and [object].  (The trace
    of an object can be written when its headers fit and [JSON.stringify]
    does not throw on the object; the trace of a text, when its headers
    fit.) *)
Theorem result_shape_fixed_by_schema (config : gmap string Val)
    (promptFn : Args → PromptOut) (args : Args) (st : St World) :
  (carries_schema config →
     (∀ r st', lamp' config promptFn args st = (Resolved r, st') →
               object_mode r ∧ ¬ text_mode r) ∧
     (∀ g w', generateObject
                (call_options (forwarded_call config (promptFn args)))
                (world st) = (Resolved g, w') →
      truthy (get config "debug") = false ∨
        (header_fits columns ∧
         ∃ output, json_stringify (go_object g) = Resolved output) →
      ∃ r st', lamp' config promptFn args st = (Resolved r, st') ∧
               object_mode r)) ∧
  (no_schema config →
     (∀ r st', lamp' config promptFn args st = (Resolved r, st') →
               text_mode r ∧ ¬ object_mode r) ∧
     ((∃ g w', generateText
                 (call_options (forwarded_call config (promptFn args)))
                 (world st) = (Resolved g, w')) →
      truthy (get config "debug") = false ∨ header_fits columns →
      ∃ r st', lamp' config promptFn args st = (Resolved r, st') ∧
               text_mode r)).
Proof.
  split; intros Hmode.
  - pose proof (carries_schema_truthy config Hmode) as Hs.
    rewrite lamp_object_call by done.
    unfold forwarded_call. rewrite Hs. cbn [call_options].
    destruct (generateObject _ _) as [[g|e] w1].
    + split.
      * intros r st' Heq. apply after_generation_resolved in Heq as [-> _].
        split; [split; eauto|]. by intros [[? [=]] _].
      * intros g' w' [= <- <-] Hok.
        destruct (after_generation_fits json_stringify columns config
                    (promptFn args)
                    (mkLResult None (Some (go_object g)) (go_usage g))
                    (mkSt w1 (stdout st))) as [out Hout].
        { destruct Hok as [Hoff|[Hfit Hjson]]; [by left|right]. by split. }
        rewrite Hout. eexists _, _. split; [done|]. split; eauto.
    + split; [done|]. by intros g w' [=].
  - pose proof (no_schema_falsy config Hmode) as Hs.
    rewrite lamp_text_call by done.
    unfold forwarded_call. rewrite Hs. cbn [call_options].
    destruct (generateText _ _) as [[g|e] w1].
    + split.
      * intros r st' Heq. apply after_generation_resolved in Heq as [-> _].
        split; [split; eauto|]. by intros [_ [? [=]]].
      * intros _ Hok.
        destruct (after_generation_fits json_stringify columns config
                    (promptFn args)
                    (mkLResult (Some (gt_text g)) None (gt_usage g))
                    (mkSt w1 (stdout st))) as [out Hout].
        { destruct Hok as [Hoff|Hfit]; [by left|right].
          by apply text_trace_writable. }
        rewrite Hout. eexists _, _. split; [done|]. split; eauto.
    + split; [done|]. by intros (g & w' & [=]).
Qed.

(** What a call with the debug flag set writes once the capability has
    answered with [r] and the output of the trace is [output]: the whole
    trace, or nothing on a terminal less than 9 columns wide. *)
Lemma after_generation_trace (config : gmap string Val) (prompts : PromptOut)
    (r : LResult num U) (output : option string) (st : St World) :
  truthy (get config "debug") = true →
  trace_output json_stringify r = Resolved output →
  (header_fits columns ∧
   after_generation json_stringify columns config prompts r st =
     (Resolved r,
      mkSt (world st)
        (stdout st ++
         trace_lines columns (system_of prompts) (prompt_of prompts) output))) ∨
  (∃ c, columns = Some c ∧ (c < 9)%Z ∧
        after_generation json_stringify columns config prompts r st =
          (Rejected (RangeError (c - 9)), st)).
Proof.
  intros Hdbg Hout. unfold after_generation. rewrite Hdbg, Hout.
  destruct (header_fits_cases columns) as [Hfit|(c & Hc & Hlt)].
  - left. split; [done|]. by rewrite logMessages_fits.
  - right. exists c. split; [done|]. split; [done|].
    by rewrite (logMessages_narrow _ _ _ _ c).
Qed.

(** C10: in debug mode, what the Output section of the trace shows is chosen
    by the truthiness of [result.text], not by the mode.  Once the
    capability has answered, a call in text mode runs [logMessages] with
    the generated text as output when that text is not empty, and with
    [undefined] -- the serialization of the missing [object] field -- when
    it is the empty string; a call in object mode, where [text] is missing,
    runs it with what [JSON.stringify] returned for the object.  So the
    trace ends, after the Output header, with the generated text, with the
    line "undefined" for an empty text, or with the serialized object.  The
    trace is written in full, or -- on a terminal less than 9 columns wide
    -- not at all. *)
Theorem empty_text_traced_as_undefined (config : gmap string Val)
    (promptFn : Args → PromptOut) (args : Args) (st : St World) :
  truthy (get config "debug") = true →
  (∀ g w',
     truthy (get config "schema") = false →
     generateText (call_options (forwarded_call config (promptFn args)))
       (world st) = (Resolved g, w') →
     lamp' config promptFn args st =
       match logMessages columns (system_of (promptFn args))
               (prompt_of (promptFn args))
               (if String.eqb (gt_text g) "" then None else Some (gt_text g))
               (mkSt w' (stdout st)) with
       | (Resolved _, st') =>
           (Resolved (mkLResult (Some (gt_text g)) None (gt_usage g)), st')
       | (Rejected e, st') => (Rejected e, st')
       end ∧
     ((header_fits columns ∧
       stdout (snd (lamp' config promptFn args st)) =
         stdout st ++
         trace_lines columns (system_of (promptFn args))
           (prompt_of (promptFn args))
           (if String.eqb (gt_text g) "" then None else Some (gt_text g)) ∧
       last (stdout (snd (lamp' config promptFn args st))) =
         Some ((if String.eqb (gt_text g) "" then "undefined" else gt_text g)
               +:+ NL)) ∨
      (∃ c, columns = Some c ∧ (c < 9)%Z ∧
            stdout (snd (lamp' config promptFn args st)) = stdout st))) ∧
  (∀ g w' output,
     truthy (get config "schema") = true →
     generateObject (call_options (forwarded_call config (promptFn args)))
       (world st) = (Resolved g, w') →
     json_stringify (go_object g) = Resolved output →
     lamp' config promptFn args st =
       match logMessages columns (system_of (promptFn args))
               (prompt_of (promptFn args)) output (mkSt w' (stdout st)) with
       | (Resolved _, st') =>
           (Resolved (mkLResult None (Some (go_object g)) (go_usage g)), st')
       | (Rejected e, st') => (Rejected e, st')
       end ∧
     ((header_fits columns ∧
       stdout (snd (lamp' config promptFn args st)) =
         stdout st ++
         trace_lines columns (system_of (promptFn args))
           (prompt_of (promptFn args)) output ∧
       last (stdout (snd (lamp' config promptFn args st))) =
         Some (default "undefined" output +:+ NL)) ∨
      (∃ c, columns = Some c ∧ (c < 9)%Z ∧
            stdout (snd (lamp' config promptFn args st)) = stdout st))).
Proof.
  intros Hdbg. split.
  - intros g w' Hs. unfold forwarded_call. rewrite Hs. cbn [call_options].
    intros Hgen. rewrite lamp_text_call, Hgen by done. split.
    { unfold after_generation. by rewrite Hdbg, trace_output_text. }
    destruct (after_generation_trace config (promptFn args)
                (mkLResult (Some (gt_text g)) None (gt_usage g)) _
                (mkSt w' (stdout st)) Hdbg
                (trace_output_text json_stringify (gt_text g) (gt_usage g)))
      as [[Hfit ->]|(c & Hc & Hlt & ->)].
    + left. split; [done|]. cbn [snd stdout]. split; [done|].
      rewrite trace_lines_last. by destruct (String.eqb (gt_text g) "").
    + right. eauto.
  - intros g w' output Hs. unfold forwarded_call. rewrite Hs.
    cbn [call_options]. intros Hgen Hjson.
    rewrite lamp_object_call, Hgen by done. split.
    { unfold after_generation.
      by rewrite Hdbg, trace_output_object, Hjson. }
    destruct (after_generation_trace config (promptFn args)
                (mkLResult None (Some (go_object g)) (go_usage g)) output
                (mkSt w' (stdout st)) Hdbg Hjson)
      as [[Hfit ->]|(c & Hc & Hlt & ->)].
    + left. split; [done|]. cbn [snd stdout]. split; [done|].
      rewrite trace_lines_last. by destruct output.
    + right. eauto.
Qed.

(** A fault of the capability is the outcome of the call, as it is; nothing
    is written. *)
Lemma text_fault_propagates (config : gmap string Val)
    (promptFn : Args → PromptOut) (args : Args) (st : St World)
    (e : Err) (w' : World) :
  truthy (get config "schema") = false →
  generateText (call_options (forwarded_call config (promptFn args)))
    (world st) = (Rejected e, w') →
  lamp' config promptFn args st = (Rejected e, mkSt w' (stdout st)).
Proof.
  intros Hs. unfold forwarded_call. rewrite Hs. cbn [call_options].
  intros Hgen. rewrite lamp_text_call by done. by rewrite Hgen.
Qed.

Lemma object_fault_propagates (config : gmap string Val)
    (promptFn : Args → PromptOut) (args : Args) (st : St World)
    (e : Err) (w' : World) :
  truthy (get config "schema") = true →
  generateObject (call_options (forwarded_call config (promptFn args)))
    (world st) = (Rejected e, w') →
  lamp' config promptFn args st = (Rejected e, mkSt w' (stdout st)).
Proof.
  intros Hs. unfold forwarded_call. rewrite Hs. cbn [call_options].
  intros Hgen. rewrite lamp_object_call by done. by rewrite Hgen.
Qed.

(** When the trace can be written (its headers fit and [JSON.stringify]
    does not throw on a generated object), switching the debug flag on
    changes neither the value a call settles with nor the world, as long as
    the capability treats the two options objects alike. *)
Lemma debug_trace_transparent (config_on config_off : gmap string Val)
    (promptFn : Args → PromptOut) (args : Args) (st : St World) :
  header_fits columns →
  (∀ v, ∃ output, json_stringify v = Resolved output) →
  truthy (get config_on "debug") = true →
  truthy (get config_off "debug") = false →
  get config_on "schema" = get config_off "schema" →
  generateText (call_options (forwarded_call config_on (promptFn args)))
    (world st) =
  generateText (call_options (forwarded_call config_off (promptFn args)))
    (world st) →
  generateObject (call_options (forwarded_call config_on (promptFn args)))
    (world st) =
  generateObject (call_options (forwarded_call config_off (promptFn args)))
    (world st) →
  fst (lamp' config_on promptFn args st) =
    fst (lamp' config_off promptFn args st) ∧
  world (snd (lamp' config_on promptFn args st)) =
    world (snd (lamp' config_off promptFn args st)).
Proof.
  intros Hfit Hjson Hon Hoff Hsch HT HO. unfold forwarded_call in HT, HO.
  rewrite <- Hsch in HT, HO.
  destruct (truthy (get config_on "schema")) eqn:Hs; cbn [call_options] in *.
  - assert (Hs' : truthy (get config_off "schema") = true) by congruence.
    rewrite (lamp_object_call _ _ _ _ config_on) by done.
    rewrite (lamp_object_call _ _ _ _ config_off) by done.
    rewrite <- Hsch, HO. clear HO HT.
    destruct (generateObject _ _) as [[g|e] w1]; [|done].
    unfold after_generation. rewrite Hon, Hoff, trace_output_object.
    destruct (Hjson (go_object g)) as [output ->].
    by rewrite logMessages_fits.
  - assert (Hs' : truthy (get config_off "schema") = false) by congruence.
    rewrite (lamp_text_call _ _ _ _ config_on) by done.
    rewrite (lamp_text_call _ _ _ _ config_off) by done.
    rewrite HT. clear HO HT.
    destruct (generateText _ _) as [[g|e] w1]; [|done].
    unfold after_generation. rewrite Hon, Hoff, trace_output_text.
    by rewrite logMessages_fits.
Qed.

End LampClaims.

(** ** Concrete calls *)

Lemma plain_config_is_LMPConfig : is_LMPConfig plain_config.
Proof.
  intros k [v Hk]. unfold plain_config in Hk.
  apply lookup_insert_Some in Hk as [[<- _]|[_ Hk]].
  { apply (bool_decide_eq_true_1 _). by vm_compute. }
  apply lookup_insert_Some in Hk as [[<- _]|[_ Hk]].
  { apply (bool_decide_eq_true_1 _). by vm_compute. }
  by rewrite lookup_empty in Hk.
Qed.

(** C1, as stated, fails: with [debug: true] in the configuration, the options
    object handed to [generateText] has the debug flag in it. *)
Lemma debug_flag_reaches_capability :
  ¬ debug_stripped
      (fst (world (snd
         (lamp (spied TextCall (fixed_text "fig, plum"))
               (spied ObjectCall (fixed_object "fig")) quote_string None
               debug_config fruit_prompt "blue" spy_start)))).
Proof.
  unfold spy_start. rewrite spy_lamp_log. intros Hstripped.
  specialize (Hstripped (forwarded_call debug_config (fruit_prompt "blue"))).
  rewrite (forwarded_call_setting debug_config _ "debug" (VBool true)) in Hstripped;
    [|done|done|done].
  assert (Hin : forwarded_call debug_config (fruit_prompt "blue")
                ∈ [] ++ [forwarded_call debug_config (fruit_prompt "blue")])
    by (simpl; apply list_elem_of_here).
  by specialize (Hstripped Hin).
Qed.

(** C6, as stated, fails for a configuration object that has a [system] and
    a [prompt] property of its own.  The prompt function returns the pair
    "Be brief.", "Name a blue fruit.", and the capability is called with the
    system message and the prompt of the configuration; with a prompt
    function that returns a bare string, the system message of the call is
    that of the configuration, not [undefined]. *)
Lemma configuration_overrides_prompt :
  (∃ call,
     fst (world (snd
       (lamp (spied TextCall (fixed_text "fig, plum"))
             (spied ObjectCall (fixed_object "fig")) quote_string None
             overriding_config brief_prompt "blue" spy_start))) = [call] ∧
     brief_prompt "blue" = Pair "Be brief." "Name a blue fruit." ∧
     call_options call !! "system" = Some (VStr "Be verbose.") ∧
     call_options call !! "prompt" = Some (VStr "Name a green fruit.") ∧
     ¬ (call_options call !! "system" = Some (VStr "Be brief.") ∧
        call_options call !! "prompt" = Some (VStr "Name a blue fruit."))) ∧
  (∃ call,
     fst (world (snd
       (lamp (spied TextCall (fixed_text "fig, plum"))
             (spied ObjectCall (fixed_object "fig")) quote_string None
             overriding_config fruit_prompt "blue" spy_start))) = [call] ∧
     get (call_options call) "system" = VStr "Be verbose." ∧
     get (call_options call) "system" ≠ VUndef).
Proof.
  assert (Hsys : ∀ prompts,
            call_options (forwarded_call overriding_config prompts) !! "system" =
            Some (VStr "Be verbose."))
    by (intros prompts; by apply forwarded_call_setting).
  assert (Hpr : ∀ prompts,
            call_options (forwarded_call overriding_config prompts) !! "prompt" =
            Some (VStr "Name a green fruit."))
    by (intros prompts; by apply forwarded_call_setting).
  split.
  - exists (forwarded_call overriding_config (brief_prompt "blue")).
    split; [unfold spy_start; by rewrite spy_lamp_log|].
    split; [reflexivity|]. split; [apply Hsys|]. split; [apply Hpr|].
    rewrite Hsys. by intros [[=] _].
  - exists (forwarded_call overriding_config (fruit_prompt "blue")).
    split; [unfold spy_start; by rewrite spy_lamp_log|].
    unfold get. by rewrite Hsys.
Qed.

Lemma prompt_and_system_forwarded_witness :
  ∃ call,
    fst (world (snd
      (lamp (spied TextCall (fixed_text "fig, plum"))
            (spied ObjectCall (fixed_object "fig")) quote_string None
            plain_config brief_prompt "blue" spy_start))) = [] ++ [call] ∧
    call_options call !! "system" = Some (VStr "Be brief.") ∧
    call_options call !! "prompt" = Some (VStr "Name a blue fruit.").
Proof.
  destruct (prompt_and_system_forwarded (fixed_text "fig, plum")
              (fixed_object "fig") quote_string None plain_config
              brief_prompt "blue" [] clock_start [])
    as (call & Hlog & _ & _ & Hpair).
  exists call. split; [exact Hlog|].
  exact (Hpair eq_refl eq_refl).
Defined.

Lemma empty_text_traced_as_undefined_witness :
  last (stdout (snd
    (lamp (fixed_text "") (fixed_object "fig") quote_string None
          debug_config fruit_prompt "blue" start_state))) =
    Some ("undefined" +:+ NL) ∧
  last (stdout (snd
    (lamp (fixed_text "fig, plum") (fixed_object "fig") quote_string None
          debug_config fruit_prompt "blue" start_state))) =
    Some ("fig, plum" +:+ NL).
Proof.
  split.
  - destruct (empty_text_traced_as_undefined (fixed_text "")
                (fixed_object "fig") quote_string None debug_config
                fruit_prompt "blue" start_state eq_refl) as [Htext _].
    destruct (Htext (mkGenText "" sample_usage) clock_start eq_refl eq_refl)
      as [_ [(_ & _ & Hlast)|(c & Hc & _)]].
    + exact Hlast.
    + discriminate Hc.
  - destruct (empty_text_traced_as_undefined (fixed_text "fig, plum")
                (fixed_object "fig") quote_string None debug_config
                fruit_prompt "blue" start_state eq_refl) as [Htext _].
    destruct (Htext (mkGenText "fig, plum" sample_usage) clock_start
                eq_refl eq_refl)
      as [_ [(_ & _ & Hlast)|(c & Hc & _)]].
    + exact Hlast.
    + discriminate Hc.
Defined.

Lemma result_shape_fixed_by_schema_witness :
  (∃ r st',
     lamp (fixed_text "fig, plum") (fixed_object "fig") quote_string None
          schema_config fruit_prompt "blue" start_state = (Resolved r, st') ∧
     object_mode r) ∧
  (∃ r st',
     lamp (fixed_text "fig, plum") (fixed_object "fig") quote_string None
          plain_config fruit_prompt "blue" start_state = (Resolved r, st') ∧
     text_mode r).
Proof.
  split.
  - destruct (result_shape_fixed_by_schema (fixed_text "fig, plum")
                (fixed_object "fig") quote_string None schema_config
                fruit_prompt "blue" start_state) as [Hobject _].
    destruct Hobject as [_ Hresolves]; [by exists 1%nat|].
    apply (Hresolves (mkGenObject "fig" sample_usage) clock_start);
      [reflexivity|by left].
  - destruct (result_shape_fixed_by_schema (fixed_text "fig, plum")
                (fixed_object "fig") quote_string None plain_config
                fruit_prompt "blue" start_state) as [_ Htext].
    destruct Htext as [_ Hresolves]; [by left|].
    apply Hresolves; [by eexists _, _|by left].
Defined.

(** C8 at a terminal that reports a width of 0 columns: the call without the
    debug flag settles with the generated text; the same call with the debug
    flag is rejected with the [RangeError] that [repeat] throws in
    [writeHeader], after the capability has answered.  The same at a
    terminal 8 columns wide. *)
Lemma debug_trace_rejects_on_narrow_terminal :
  lamp (fixed_text "fig, plum") (fixed_object "fig") quote_string (Some 0%Z)
       plain_config fruit_prompt "blue" start_state =
    (Resolved (mkLResult (Some "fig, plum") None sample_usage), start_state) ∧
  lamp (fixed_text "fig, plum") (fixed_object "fig") quote_string (Some 0%Z)
       debug_config fruit_prompt "blue" start_state =
    (Rejected (RangeError (-9)), start_state) ∧
  lamp (fixed_text "fig, plum") (fixed_object "fig") quote_string (Some 8%Z)
       debug_config fruit_prompt "blue" start_state =
    (Rejected (RangeError (-1)), start_state).
Proof. repeat split; reflexivity. Qed.

(** * Properties of [evaluate.ts] *)

Section LoopFacts.
Context {World : Type}.

Lemma for_of_app {A B : Type} (xs ys : list A) (body : A → B → M World B)
    (b : B) (st : St World) :
  for_of (xs ++ ys) body b st =
  match for_of xs body b st with
  | (Resolved b', st') => for_of ys body b' st'
  | (Rejected e, st') => (Rejected e, st')
  end.
Proof.
  revert b st. induction xs as [|x xs IH]; intros b st; [done|].
  simpl. unfold bind. destruct (body x b st) as [[b1|e] st1]; [apply IH|done].
Qed.

(** A body that does not look at the element runs once for each element. *)
Lemma for_of_map_const {A C B : Type} (g : A → C) (xs : list A)
    (body : C → B → M World B) (f : B → M World B) (b : B) (st : St World) :
  (∀ a b st, body (g a) b st = f b st) →
  for_of (map g xs) body b st = for_of xs (fun _ => f) b st.
Proof.
  intros Hbody. revert b st.
  induction xs as [|x xs IH]; intros b st; [done|].
  simpl. unfold bind. rewrite Hbody.
  destruct (f b st) as [[b1|e] st1]; [apply IH|done].
Qed.

Lemma for_count_nonpositive {B : Type} (n : Z) (body : Z → B → M World B)
    (b : B) (st : St World) :
  (n ≤ 0)%Z → for_count n body b st = (Resolved b, st).
Proof.
  intros Hn. unfold for_count.
  by replace (Z.to_nat n) with 0 by lia.
Qed.

End LoopFacts.

Section ScheduleFacts.
Context {P : Type}.

Lemma schedule_cons (testCase : TestCase P) (cases : list (TestCase P)) (m : nat) :
  schedule (testCase :: cases) m =
  map (fun i => (testCase, i)) (seq 0 m) ++ schedule cases m.
Proof. reflexivity. Qed.

Lemma schedule_length (cases : list (TestCase P)) (m : nat) :
  length (schedule cases m) = length cases * m.
Proof.
  induction cases as [|tc cases IH]; [done|].
  rewrite schedule_cons, length_app, length_map, length_seq, IH. simpl. lia.
Qed.

(** Position [k] of the schedule is iteration [k mod m] of test case
    [k / m]. *)
Lemma schedule_lookup (cases : list (TestCase P)) (m k : nat) :
  k < length cases * m →
  ∃ testCase,
    cases !! (k / m) = Some testCase ∧
    schedule cases m !! k = Some (testCase, k mod m).
Proof.
  revert k. induction cases as [|tc cases IH]; intros k Hk; [simpl in Hk; lia|].
  assert (Hm : m ≠ 0) by (intros ->; simpl in Hk; lia).
  rewrite schedule_cons.
  destruct (Nat.lt_ge_cases k m) as [Hlt|Hge].
  - exists tc. rewrite Nat.div_small, Nat.mod_small by done. split; [done|].
    rewrite lookup_app_l by (by rewrite length_map, length_seq).
    rewrite list_lookup_fmap, lookup_seq_lt by done. done.
  - destruct (IH (k - m)) as (tc' & Hcase & Hsched); [simpl in Hk; lia|].
    assert (Hk' : k = (k - m) + 1 * m) by lia.
    exists tc'. split.
    + rewrite Hk', Nat.div_add by done.
      replace ((k - m) / m + 1) with (S ((k - m) / m)) by lia. done.
    + rewrite lookup_app_r by (rewrite length_map, length_seq; lia).
      rewrite length_map, length_seq, Hsched.
      rewrite Hk' at 2. by rewrite Nat.Div0.mod_add.
Qed.

End ScheduleFacts.

Section EvaluateFacts.
Context {num U World P : Type} `{JSNumber num}.
Variable performance_now : World → num * World.

Abbreviation cfgT := (Config (num := num) (U := U) (World := World) (P := P)).
Abbreviation fnT := (P → M World (LResult num U)).

Lemma describe_empty : describe (@nil num) = Rejected EmptyInput.
Proof. reflexivity. Qed.

Lemma describe_nonempty (numbers : list num) :
  numbers ≠ [] → ∃ s, describe numbers = Resolved s.
Proof. destruct numbers as [|x l]; [done|]. intros _. unfold describe. simpl. eauto. Qed.

Lemma cases_guard (cases : list (TestCase P)) :
  (if Nat.ltb 0 (length cases) then cases else []) = cases.
Proof. by destruct cases. Qed.

(** The body of the inner loop is one trial, recorded in the arrays. *)
Lemma trial_one_trial (config : cfgT) (fn : fnT) (testCase : TestCase P)
    (acc : Acc) (st : St World) :
  trial performance_now config fn testCase acc st =
  match one_trial performance_now config fn testCase st with
  | (Resolved tr, st') => (Resolved (record_trial config acc tr), st')
  | (Rejected e, st') => (Rejected e, st')
  end.
Proof.
  unfold trial, one_trial, timed_invocation, record_trial, bind, ret.
  destruct (now performance_now st) as [[t0|e] s1]; [|done].
  destruct (fn (input testCase) s1) as [[r|e] s2]; [|done].
  destruct (now performance_now s2) as [[t1|e] s3]; [|done].
  cbn [fst snd scores responses promptTokensAcc responseTokens executionTimes].
  destruct (evaluator config testCase r s3) as [[v|e] s4]; [|done].
  reflexivity.
Qed.

(** The two nested loops run the trials of the schedule, in its order. *)
Lemma nested_loops_schedule (config : cfgT) (fn : fnT)
    (cases : list (TestCase P)) (acc : Acc) (st : St World) :
  for_of cases
    (fun testCase acc =>
       for_count (iterations config)
         (fun _ acc => trial performance_now config fn testCase acc) acc)
    acc st =
  for_of (schedule cases (Z.to_nat (iterations config)))
    (fun ti acc => trial performance_now config fn (fst ti) acc) acc st.
Proof.
  revert acc st. induction cases as [|tc cases IH]; intros acc st; [done|].
  rewrite schedule_cons, for_of_app. simpl. unfold bind at 1.
  unfold for_count.
  rewrite (for_of_map_const Z.of_nat _ _
             (trial performance_now config fn tc)) by done.
  rewrite (for_of_map_const (fun i => (tc, i)) _ _
             (trial performance_now config fn tc)) by done.
  destruct (for_of _ _ acc st) as [[acc1|e] st1]; [apply IH|done].
Qed.

Lemma run_loops_schedule (config : cfgT) (fn : fnT)
    (cases : list (TestCase P)) (st : St World) :
  run_loops performance_now config fn cases st =
  for_of (schedule cases (Z.to_nat (iterations config)))
    (fun ti acc => trial performance_now config fn (fst ti) acc) empty_acc st.
Proof. apply nested_loops_schedule. Qed.

(** A chain of resolved trials fills the arrays with its records. *)
Lemma chain_for_of (config : cfgT) (fn : fnT)
    (sched : list (TestCase P * nat)) (st st' : St World)
    (log : list (TrialRecord num U)) (acc : Acc) :
  trials_chain performance_now config fn sched st log st' →
  for_of sched (fun ti acc => trial performance_now config fn (fst ti) acc)
    acc st =
  (Resolved (fold_left (record_trial config) log acc), st').
Proof.
  intros Hchain. revert acc.
  induction Hchain as [st|tc i later st st1 st' tr log Htrial _ IH]; intros acc.
  - reflexivity.
  - simpl. unfold bind. rewrite trial_one_trial, Htrial. apply IH.
Qed.

Lemma chain_length (config : cfgT) (fn : fnT)
    (sched : list (TestCase P * nat)) (st st' : St World)
    (log : list (TrialRecord num U)) :
  trials_chain performance_now config fn sched st log st' →
  length log = length sched.
Proof. induction 1; simpl; congruence. Qed.

(** Record [k] of a chain is the outcome of the trial at position [k]. *)
Lemma chain_lookup (config : cfgT) (fn : fnT)
    (sched : list (TestCase P * nat)) (st st' : St World)
    (log : list (TrialRecord num U)) (k : nat) (testCase : TestCase P) (i : nat) :
  trials_chain performance_now config fn sched st log st' →
  sched !! k = Some (testCase, i) →
  ∃ tr s s',
    log !! k = Some tr ∧
    one_trial performance_now config fn testCase s = (Resolved tr, s').
Proof.
  intros Hchain. revert k.
  induction Hchain as [st|tc j later st st1 st' tr log Htrial _ IH]; intros k Hk.
  - done.
  - destruct k as [|k]; simpl in Hk.
    + injection Hk as -> ->. eauto.
    + destruct (IH k Hk) as (tr' & s & s' & Hlog & Hone). eauto.
Qed.

Lemma now_resolves (st : St World) :
  ∃ t st', now performance_now st = (Resolved t, st').
Proof.
  unfold now, extern. destruct (performance_now (world st)) as [t w']. eauto.
Qed.

(** With an invoker and an evaluator that always resolve, every trial
    resolves, and so does every chain of trials. *)
Lemma one_trial_resolves (config : cfgT) (fn : fnT)
    (testCase : TestCase P) (st : St World) :
  (∀ p s, ∃ r s', fn p s = (Resolved r, s')) →
  (∀ tc r s, ∃ v s', evaluator config tc r s = (Resolved v, s')) →
  ∃ tr st', one_trial performance_now config fn testCase st = (Resolved tr, st').
Proof.
  intros Hfn Hev. unfold one_trial, timed_invocation, bind, ret.
  destruct (now_resolves st) as (t0 & s1 & ->).
  destruct (Hfn (input testCase) s1) as (r & s2 & ->).
  destruct (now_resolves s2) as (t1 & s3 & ->).
  cbn [fst snd].
  destruct (Hev testCase r s3) as (v & s4 & ->). eauto.
Qed.

Lemma chain_exists (config : cfgT) (fn : fnT)
    (sched : list (TestCase P * nat)) (st : St World) :
  (∀ p s, ∃ r s', fn p s = (Resolved r, s')) →
  (∀ tc r s, ∃ v s', evaluator config tc r s = (Resolved v, s')) →
  ∃ log st', trials_chain performance_now config fn sched st log st'.
Proof.
  intros Hfn Hev. revert st.
  induction sched as [|[tc i] sched IH]; intros st.
  - eexists _, _. constructor.
  - destruct (one_trial_resolves config fn tc st Hfn Hev) as (tr & st1 & Htr).
    destruct (IH st1) as (log & st' & Hchain).
    eexists _, _. econstructor; eauto.
Qed.

(** What the arrays hold after the records of a log were added. *)
Lemma recorded_arrays (config : cfgT) (log : list (TrialRecord num U))
    (acc : Acc) :
  let acc' := fold_left (record_trial config) log acc in
  scores acc' = scores acc ++ map tr_score log ∧
  responses acc' = responses acc ++ map tr_response log ∧
  promptTokensAcc acc' =
    promptTokensAcc acc ++
    map (fun tr => promptTokens (usage (tr_response tr))) log ∧
  responseTokens acc' =
    responseTokens acc ++
    map (fun tr => completionTokens (usage (tr_response tr))) log ∧
  executionTimes acc' =
    (if benchmark config then executionTimes acc ++ map tr_time log
     else executionTimes acc).
Proof.
  revert acc. induction log as [|tr log IH]; intros acc; simpl.
  - rewrite !app_nil_r. by destruct (benchmark config).
  - destruct (IH (record_trial config acc tr)) as (-> & -> & -> & -> & ->).
    unfold record_trial; simpl.
    rewrite <- !app_assoc. simpl.
    destruct (benchmark config); by rewrite <- ?app_assoc.
Qed.

End EvaluateFacts.

Section EvaluateClaims.
Context {num U World P : Type} `{JSNumber num}.
Variable performance_now : World → num * World.

Abbreviation cfgT' := (Config (num := num) (U := U) (World := World) (P := P)).
Abbreviation fnT' := (P → M World (LResult num U)).

(** What [run] does once the loops have filled the arrays. *)
Lemma run_after_loops (config : cfgT') (fn : fnT') (st : St World) :
  run performance_now config fn st =
  match run_loops performance_now config fn (testCases config) st with
  | (Resolved acc, st') =>
      match describe (scores acc), describe (executionTimes acc),
            describe (promptTokensAcc acc), describe (responseTokens acc) with
      | Resolved s, Resolved e, Resolved p, Resolved c =>
          (Resolved (mkEvalResult (responses acc) (testCases config)
                       (mkSeries (scores acc) s)
                       (mkSeries (executionTimes acc) e)
                       (mkSeries (promptTokensAcc acc) p)
                       (mkSeries (responseTokens acc) c)), st')
      | Rejected err, _, _, _ => (Rejected err, st')
      | _, Rejected err, _, _ => (Rejected err, st')
      | _, _, Rejected err, _ => (Rejected err, st')
      | _, _, _, Rejected err => (Rejected err, st')
      end
  | (Rejected err, st') => (Rejected err, st')
  end.
Proof.
  unfold run, bind, lift, ret. rewrite cases_guard.
  destruct (run_loops _ _ _ _ _) as [[acc|err] st']; [|done].
  destruct (describe (scores acc)); [|done].
  destruct (describe (executionTimes acc)); [|done].
  destruct (describe (promptTokensAcc acc)); [|done].
  by destruct (describe (responseTokens acc)).
Qed.

(** C3, as amended: with at least one test case, at least one iteration and
    benchmarking enabled, and with an invoker and an evaluator that always
    resolve, [run] resolves; its five series have length N×M; and position
    [k] of every series belongs to one and the same trial, a trial on test
    case [k / M]: [responses[k]] is its response, [scores.values[k]] the
    score the evaluator gave it, [promptTokens.values[k]] and
    [completionTokens.values[k]] the usage fields of [responses[k]],
    [executionTimes.values[k]] its elapsed time.  The trials are those of
    the schedule, run in its order from the initial state. *)
Theorem run_series_follow_schedule (config : cfgT') (fn : fnT') (st : St World) :
  testCases config ≠ [] →
  (1 ≤ iterations config)%Z →
  benchmark config = true →
  (∀ p s, ∃ r s', fn p s = (Resolved r, s')) →
  (∀ tc r s, ∃ v s', evaluator config tc r s = (Resolved v, s')) →
  ∃ res st' log,
    run performance_now config fn st = (Resolved res, st') ∧
    trials_chain performance_now config fn
      (schedule (testCases config) (Z.to_nat (iterations config))) st log st' ∧
    res_testCases res = testCases config ∧
    length (values (res_scores res)) =
      length (testCases config) * Z.to_nat (iterations config) ∧
    length (res_responses res) =
      length (testCases config) * Z.to_nat (iterations config) ∧
    length (values (res_promptTokens res)) =
      length (testCases config) * Z.to_nat (iterations config) ∧
    length (values (res_completionTokens res)) =
      length (testCases config) * Z.to_nat (iterations config) ∧
    length (values (res_executionTimes res)) =
      length (testCases config) * Z.to_nat (iterations config) ∧
    ∀ k, k < length (testCases config) * Z.to_nat (iterations config) →
      ∃ testCase tr s s',
        testCases config !! (k / Z.to_nat (iterations config)) = Some testCase ∧
        schedule (testCases config) (Z.to_nat (iterations config)) !! k =
          Some (testCase, k mod Z.to_nat (iterations config)) ∧
        log !! k = Some tr ∧
        one_trial performance_now config fn testCase s = (Resolved tr, s') ∧
        res_responses res !! k = Some (tr_response tr) ∧
        values (res_scores res) !! k = Some (tr_score tr) ∧
        values (res_promptTokens res) !! k =
          Some (promptTokens (usage (tr_response tr))) ∧
        values (res_completionTokens res) !! k =
          Some (completionTokens (usage (tr_response tr))) ∧
        values (res_executionTimes res) !! k = Some (tr_time tr).
Proof.
  intros Hcases Hiter Hbench Hfn Hev.
  set (M := Z.to_nat (iterations config)).
  set (N := length (testCases config)).
  destruct (chain_exists performance_now config fn
              (schedule (testCases config) M) st Hfn Hev)
    as (log & st' & Hchain).
  pose proof (chain_length _ _ _ _ _ _ _ Hchain) as Hlen.
  rewrite schedule_length in Hlen. fold N in Hlen.
  assert (HNM : 0 < N * M).
  { subst N M. destruct (testCases config); [done|]. simpl. lia. }
  destruct (recorded_arrays config log empty_acc)
    as (Hs & Hr & Hp & Hc & He).
  rewrite Hbench in He. simpl in Hs, Hr, Hp, Hc, He.
  assert (Hne : ∀ {A} (f : TrialRecord num U → A), map f log ≠ []).
  { intros A f Hnil. apply (f_equal length) in Hnil.
    rewrite length_map in Hnil. simpl in Hnil. lia. }
  rewrite run_after_loops, run_loops_schedule.
  fold M. rewrite (chain_for_of _ _ _ _ _ _ _ _ Hchain).
  rewrite Hs, Hr, Hp, Hc, He.
  destruct (describe_nonempty _ (Hne _ tr_score)) as [s ->].
  destruct (describe_nonempty _ (Hne _ tr_time)) as [e ->].
  destruct (describe_nonempty _
              (Hne _ (fun tr => promptTokens (usage (tr_response tr)))))
    as [p ->].
  destruct (describe_nonempty _
              (Hne _ (fun tr => completionTokens (usage (tr_response tr)))))
    as [c ->].
  eexists _, st', log. split; [reflexivity|]. split; [exact Hchain|].
  cbn [res_testCases res_scores res_responses res_promptTokens
       res_completionTokens res_executionTimes values].
  rewrite !length_map.
  do 6 (split; [done|]).
  intros k Hk.
  destruct (schedule_lookup (testCases config) M k Hk) as (tc & Hcase & Hsched).
  destruct (chain_lookup _ _ _ _ _ _ _ k tc _ Hchain Hsched)
    as (tr & s0 & s1 & Hlog & Hone).
  exists tc, tr, s0, s1.
  rewrite !list_lookup_fmap, Hlog. done.
Qed.

Lemma schedule_no_iterations (cases : list (TestCase P)) :
  schedule cases 0 = [].
Proof. induction cases as [|tc cases IH]; [done|]. by rewrite schedule_cons, IH. Qed.

(** Without benchmarking no trial adds to [executionTimes]. *)
Lemma loops_keep_times (config : cfgT') (fn : fnT')
    (sched : list (TestCase P * nat)) (acc acc' : Acc) (st st' : St World) :
  benchmark config = false →
  for_of sched (fun ti acc => trial performance_now config fn (fst ti) acc)
    acc st = (Resolved acc', st') →
  executionTimes acc' = executionTimes acc.
Proof.
  intros Hbench. revert acc st.
  induction sched as [|[tc i] sched IH]; intros acc st; simpl.
  - by intros [= <- <-].
  - unfold bind. rewrite trial_one_trial.
    destruct (one_trial _ _ _ _ _) as [[tr|e] st1]; [|done].
    intros Hrest. rewrite (IH _ _ Hrest).
    unfold record_trial; simpl. by rewrite Hbench.
Qed.

(** C4: statistics over an empty series fail with the empty-input error;
    hence [run] fails, returning no result, when no test case is supplied
    and when benchmarking is off: in that case, even when every trial of a
    non-empty evaluation went through and the scores are there,
    [executionTimes] is empty and its statistics fail. *)
Theorem empty_series_fail (config : cfgT') (fn : fnT') (st : St World) :
  describe (@nil num) = Rejected EmptyInput ∧
  (testCases config = [] →
     run performance_now config fn st = (Rejected EmptyInput, st)) ∧
  (benchmark config = false →
     (∃ err st', run performance_now config fn st = (Rejected err, st')) ∧
     (testCases config ≠ [] →
      (1 ≤ iterations config)%Z →
      (∀ p s, ∃ r s', fn p s = (Resolved r, s')) →
      (∀ tc r s, ∃ v s', evaluator config tc r s = (Resolved v, s')) →
      ∃ acc st',
        run_loops performance_now config fn (testCases config) st =
          (Resolved acc, st') ∧
        scores acc ≠ [] ∧
        executionTimes acc = [] ∧
        run performance_now config fn st = (Rejected EmptyInput, st'))).
Proof.
  split; [reflexivity|]. split.
  - intros Hnil. rewrite run_after_loops, Hnil. reflexivity.
  - intros Hbench. split.
    + rewrite run_after_loops, run_loops_schedule.
      destruct (for_of _ _ _ _) as [[acc|err] st'] eqn:Hloops; [|eauto].
      apply loops_keep_times in Hloops; [|done]. rewrite Hloops.
      cbn [executionTimes empty_acc]. rewrite describe_empty.
      destruct (describe (scores acc)); eauto.
    + intros Hcases Hiter Hfn Hev.
      destruct (chain_exists performance_now config fn
                  (schedule (testCases config) (Z.to_nat (iterations config)))
                  st Hfn Hev) as (log & st' & Hchain).
      pose proof (chain_length _ _ _ _ _ _ _ Hchain) as Hlen.
      rewrite schedule_length in Hlen.
      destruct (recorded_arrays config log empty_acc)
        as (Hs & _ & _ & _ & He).
      rewrite Hbench in He. simpl in Hs, He.
      assert (Hne : map tr_score log ≠ []).
      { intros Hnil. apply (f_equal length) in Hnil.
        rewrite length_map in Hnil. simpl in Hnil.
        destruct (testCases config); [done|]. simpl in Hlen. lia. }
      rewrite run_after_loops, run_loops_schedule.
      rewrite (chain_for_of _ _ _ _ _ _ _ _ Hchain).
      eexists _, st'. split; [reflexivity|].
      rewrite Hs, He. split; [done|]. split; [done|].
      destruct (describe_nonempty _ Hne) as [s ->]. by rewrite describe_empty.
Qed.

(** C9: an iteration count of 0 or less given in the configuration is kept by
    the merge of the defaults; the loops then run no trial, whatever the test
    cases, leave every array empty and the state as it was, and [run] fails
    with the empty-input error. *)
Theorem nonpositive_iterations_kept (config : EvalConfig) (m : Z)
    (fn : fnT') (st : St World) :
  opt_iterations config = Some m →
  (m ≤ 0)%Z →
  iterations (Evaluator_new config) = m ∧
  run_loops performance_now (Evaluator_new config) fn
    (testCases (Evaluator_new config)) st = (Resolved empty_acc, st) ∧
  run performance_now (Evaluator_new config) fn st =
    (Rejected EmptyInput, st).
Proof.
  intros Hit Hm.
  assert (Hkept : iterations (Evaluator_new config) = m).
  { unfold Evaluator_new; simpl. by rewrite Hit. }
  assert (Hloops :
    run_loops performance_now (Evaluator_new config) fn
      (testCases (Evaluator_new config)) st = (Resolved empty_acc, st)).
  { rewrite run_loops_schedule, Hkept.
    replace (Z.to_nat m) with 0 by lia. by rewrite schedule_no_iterations. }
  split; [done|]. split; [done|].
  rewrite run_after_loops, Hloops. reflexivity.
Qed.

(** A trial that is rejected, after trials that resolved, is the outcome of
    [run]: the state is left as the rejected trial left it. *)
Lemma run_rejected_trial (config : cfgT') (fn : fnT') (st st1 st2 : St World)
    (pre post : list (TestCase P * nat)) (testCase : TestCase P) (i : nat)
    (log : list (TrialRecord num U)) (err : Err) :
  schedule (testCases config) (Z.to_nat (iterations config)) =
    pre ++ (testCase, i) :: post →
  trials_chain performance_now config fn pre st log st1 →
  one_trial performance_now config fn testCase st1 = (Rejected err, st2) →
  run performance_now config fn st = (Rejected err, st2).
Proof.
  intros Hsched Hchain Htrial.
  rewrite run_after_loops, run_loops_schedule, Hsched, for_of_app.
  rewrite (chain_for_of _ _ _ _ _ _ _ _ Hchain).
  simpl. unfold bind. by rewrite trial_one_trial, Htrial.
Qed.

(** A rejection of the evaluator is a rejection of its trial. *)
Lemma evaluator_fault_rejects_trial (config : cfgT') (fn : fnT')
    (testCase : TestCase P) (st1 st2 st3 : St World)
    (t : num * LResult num U * num) (err : Err) :
  timed_invocation performance_now fn testCase st1 = (Resolved t, st2) →
  evaluator config testCase (snd (fst t)) st2 = (Rejected err, st3) →
  one_trial performance_now config fn testCase st1 = (Rejected err, st3).
Proof.
  intros Hinv Hev. unfold one_trial, bind. by rewrite Hinv, Hev.
Qed.

End EvaluateClaims.

Section FaultClaims.
Context {num U World Args P : Type} `{JSNumber num}.
Variable generateText :
  gmap string Val → World → Outcome (GenText num) * World.
Variable generateObject :
  gmap string Val → World → Outcome (GenObject num U) * World.
Variable json_stringify : U → Outcome (option string).
Variable columns : option Z.
Variable performance_now : World → num * World.

(** C7: no fault is recovered from.  A fault of the generation capability,
    in text mode or in object mode, is the outcome of the call of the bound
    invoker, unchanged, and the call writes nothing.  In [run], when the
    trials before some trial have resolved and that trial is rejected -- in
    particular when its invocation resolved and the evaluator threw or
    rejected -- [run] is rejected with the same error, in the state the
    failing call left: no later trial runs and no result is returned. *)
Theorem faults_abort_the_operation
    (lconfig : gmap string Val) (promptFn : Args → PromptOut) (args : Args)
    (config : Config (num := num) (U := U) (World := World) (P := P))
    (fn : P → M World (LResult num U))
    (st st1 st2 st3 : St World) (w' : World) (err : Err)
    (pre post : list (TestCase P * nat)) (testCase : TestCase P) (i : nat)
    (log : list (TrialRecord num U)) (t : num * LResult num U * num) :
  (truthy (get lconfig "schema") = false →
   generateText (call_options (forwarded_call lconfig (promptFn args)))
     (world st) = (Rejected err, w') →
   lamp generateText generateObject json_stringify columns lconfig promptFn
     args st = (Rejected err, mkSt w' (stdout st))) ∧
  (truthy (get lconfig "schema") = true →
   generateObject (call_options (forwarded_call lconfig (promptFn args)))
     (world st) = (Rejected err, w') →
   lamp generateText generateObject json_stringify columns lconfig promptFn
     args st = (Rejected err, mkSt w' (stdout st))) ∧
  (schedule (testCases config) (Z.to_nat (iterations config)) =
     pre ++ (testCase, i) :: post →
   trials_chain performance_now config fn pre st log st1 →
   (one_trial performance_now config fn testCase st1 = (Rejected err, st3) →
    run performance_now config fn st = (Rejected err, st3)) ∧
   (timed_invocation performance_now fn testCase st1 = (Resolved t, st2) →
    evaluator config testCase (snd (fst t)) st2 = (Rejected err, st3) →
    run performance_now config fn st = (Rejected err, st3))).
Proof.
  split; [apply text_fault_propagates|].
  split; [apply object_fault_propagates|].
  intros Hsched Hchain. split.
  - intros Htrial. eapply run_rejected_trial; eauto.
  - intros Hinv Hev. eapply run_rejected_trial; eauto.
    eapply evaluator_fault_rejects_trial; eauto.
Qed.

End FaultClaims.

(** ** A concrete evaluation *)

Lemma echo_invoker_resolves (p : string) (s : St PrimFloat.float) :
  ∃ r s', echo_invoker p s = (Resolved r, s').
Proof. eexists _, _. reflexivity. Qed.

Lemma constant_evaluator_resolves (tc : TestCase string)
    (r : LResult PrimFloat.float string) (s : St PrimFloat.float) :
  ∃ v s', evaluator red_fruit_eval tc r s = (Resolved v, s').
Proof. eexists _, _. reflexivity. Qed.

(** C3, as stated, fails for a configuration with no test case (N = 0):
    benchmarking is enabled, invoker and evaluator always resolve, and [run]
    returns no series at all, of length 0 or any other. *)
Lemma run_without_test_cases_returns_nothing :
  benchmark no_cases_eval = true ∧
  (∀ p s, ∃ r s', echo_invoker p s = (Resolved r, s')) ∧
  (∀ tc r s, ∃ v s', evaluator no_cases_eval tc r s = (Resolved v, s')) ∧
  run ticking_clock no_cases_eval echo_invoker start_state =
    (Rejected EmptyInput, start_state) ∧
  ¬ ∃ res st',
      run ticking_clock no_cases_eval echo_invoker start_state =
        (Resolved res, st') ∧
      length (values (res_scores res)) =
        length (testCases no_cases_eval) * Z.to_nat (iterations no_cases_eval).
Proof.
  split; [reflexivity|]. split; [apply echo_invoker_resolves|].
  split; [intros; eexists _, _; reflexivity|].
  split; [reflexivity|].
  intros (res & st' & Hrun & _). discriminate Hrun.
Qed.

Lemma run_series_follow_schedule_witness :
  ∃ res st',
    run ticking_clock red_fruit_eval echo_invoker start_state =
      (Resolved res, st') ∧
    length (values (res_scores res)) = 1 * 2 ∧
    length (res_responses res) = 1 * 2.
Proof.
  destruct (run_series_follow_schedule ticking_clock red_fruit_eval
              echo_invoker start_state)
    as (res & st' & log & Hrun & _ & _ & Hs & Hr & _).
  - discriminate.
  - simpl. lia.
  - reflexivity.
  - apply echo_invoker_resolves.
  - apply constant_evaluator_resolves.
  - exists res, st'. split; [exact Hrun|]. split; [exact Hs|exact Hr].
Defined.

Lemma empty_series_fail_witness :
  run ticking_clock no_cases_eval echo_invoker start_state =
    (Rejected EmptyInput, start_state) ∧
  ∃ err st',
    run ticking_clock no_benchmark_eval echo_invoker start_state =
      (Rejected err, st').
Proof.
  split.
  - apply (empty_series_fail ticking_clock no_cases_eval echo_invoker
             start_state). reflexivity.
  - apply (empty_series_fail ticking_clock no_benchmark_eval echo_invoker
             start_state). reflexivity.
Defined.

Lemma nonpositive_iterations_kept_witness :
  iterations (Evaluator_new zero_iterations_config) = 0%Z ∧
  run_loops ticking_clock (Evaluator_new zero_iterations_config) echo_invoker
    (testCases (Evaluator_new zero_iterations_config)) start_state =
    (Resolved empty_acc, start_state) ∧
  run ticking_clock (Evaluator_new zero_iterations_config) echo_invoker
    start_state = (Rejected EmptyInput, start_state).
Proof.
  apply (nonpositive_iterations_kept ticking_clock zero_iterations_config 0%Z
           echo_invoker start_state).
  - reflexivity.
  - lia.
Defined.

Lemma faults_abort_the_operation_witness :
  lamp failing_text failing_object quote_string None plain_config fruit_prompt
    "blue" start_state = (Rejected rate_limited, start_state) ∧
  run ticking_clock throwing_eval echo_invoker start_state =
    (Rejected bad_score, after_first_invocation).
Proof.
  pose proof (faults_abort_the_operation failing_text failing_object
                quote_string None ticking_clock plain_config fruit_prompt "blue"
                throwing_eval echo_invoker start_state start_state
                after_first_invocation after_first_invocation clock_start
                rate_limited [] [(red_fruit, 1)] red_fruit 0 [] first_timing)
    as Hlamp.
  pose proof (faults_abort_the_operation failing_text failing_object
                quote_string None ticking_clock plain_config fruit_prompt "blue"
                throwing_eval echo_invoker start_state start_state
                after_first_invocation after_first_invocation clock_start
                bad_score [] [(red_fruit, 1)] red_fruit 0 [] first_timing)
    as Hrun.
  destruct Hlamp as (Htext & _ & _). destruct Hrun as (_ & _ & Hr).
  split.
  - apply Htext; reflexivity.
  - destruct Hr as [_ Hev]; [reflexivity|constructor|].
    apply Hev; vm_compute; reflexivity.
Defined.

(** * [describe] *)

Section SortFacts.
Context {num : Type} `{JSNumber num}.

Lemma sort_insert_perm (comparefn : num → num → num) (a : num) (l : list num) :
  Permutation (sort_insert comparefn a l) (a :: l).
Proof.
  induction l as [|b l IH]; simpl; [done|].
  destruct (num_gt0 (comparefn a b)); [|done].
  rewrite IH. apply perm_swap.
Qed.

(** The sorted copy has the elements of the input. *)
Lemma js_sort_perm (comparefn : num → num → num) (l : list num) :
  Permutation (js_sort comparefn l) l.
Proof.
  induction l as [|a l IH]; simpl; [done|].
  fold (js_sort comparefn l). rewrite sort_insert_perm. by constructor.
Qed.

Lemma js_sort_length (comparefn : num → num → num) (l : list num) :
  length (js_sort comparefn l) = length l.
Proof. apply Permutation_length, js_sort_perm. Qed.

Lemma mod2_even (n : nat) : Nat.eqb (n mod 2) 0 = Nat.even n.
Proof.
  destruct (Nat.even n) eqn:E.
  - apply Nat.even_spec in E as [k ->].
    by rewrite Nat.mul_comm, Nat.Div0.mod_mul.
  - assert (Ho : Nat.odd n = true) by (by rewrite <- Nat.negb_even, E).
    apply Nat.odd_spec in Ho as [k ->].
    rewrite Nat.add_comm, Nat.mul_comm, Nat.Div0.mod_add. done.
Qed.

(** What [describe] returns on a non-empty array, in terms of the sorted
    copy that it makes. *)
Lemma describe_sorted (numbers : list num) :
  numbers ≠ [] →
  describe numbers =
  Resolved
    (let l := js_sort (fun a b => num_sub a b) numbers in
     let n := num_of_nat (length numbers) in
     let average := num_div (sum_reduce l) n in
     mkStatisticsResult average (median_of_sorted l)
       (num_sqrt
          (num_div
             (sum_reduce (map (fun x => num_sq (num_sub x average)) l)) n))
       (nth (length numbers - 1) l num_undef)
       (nth 0 l num_undef)).
Proof.
  intros Hne. unfold describe.
  destruct numbers as [|x0 S0]; [done|].
  change (Nat.eqb (length (x0 :: S0)) 0) with false. cbv iota zeta.
  unfold median_of_sorted, at_index.
  by rewrite mod2_even, !js_sort_length.
Qed.

End SortFacts.

Section SortedFacts.
Context {A : Type}.

(** In a sorted sequence every element is related to every later one. *)
Lemma strongly_sorted_nth (R : A → A → Prop) (l : list A) (d : A) (i j : nat) :
  StronglySorted R l → i < j → j < length l → R (nth i l d) (nth j l d).
Proof.
  intros Hs. revert i j.
  induction Hs as [|a l Hs IH Hall]; intros i j Hij Hj; [simpl in Hj; lia|].
  destruct j as [|j]; [lia|]. destruct i as [|i]; simpl in *.
  - rewrite List.Forall_forall in Hall. apply Hall, nth_In. lia.
  - apply IH; lia.
Qed.

Lemma strongly_sorted_impl (R Q : A → A → Prop) (ok : A → Prop) (l : list A) :
  (∀ a b, ok a → ok b → R a b → Q a b) →
  (∀ x, In x l → ok x) →
  StronglySorted R l → StronglySorted Q l.
Proof.
  intros Himpl Hok Hs.
  induction Hs as [|a l Hs IH Hall]; constructor.
  - apply IH. intros x Hx. apply Hok. by right.
  - rewrite List.Forall_forall in Hall. apply List.Forall_forall.
    intros x Hx. apply Himpl; [apply Hok; by left|apply Hok; by right|auto].
Qed.

End SortedFacts.

(** ** The sorted copy, for a consistent comparator *)

Section SortOrder.
Context {num : Type} `{JSNumber num}.
Variable ok : num → Prop.
Hypothesis comparator_ok : consistent_comparator ok.

Lemma sort_insert_ascending (a : num) (l : list num) :
  ok a → (∀ x, In x l → ok x) → ascending l →
  ascending (sort_insert (fun a b => num_sub a b) a l).
Proof.
  intros Ha Hl Hasc. destruct comparator_ok as [Hasym Hneg].
  induction Hasc as [|b l Hasc IH Hb]; simpl.
  - repeat constructor.
  - assert (Hokb : ok b) by (apply Hl; by left).
    assert (Hl' : ∀ x, In x l → ok x) by (intros x Hx; apply Hl; by right).
    rewrite List.Forall_forall in Hb.
    change (num_gt0 (num_sub a b)) with (sorts_after a b).
    destruct (sorts_after a b) eqn:Hab.
    + constructor; [by apply IH|].
      apply List.Forall_forall. intros x Hx.
      apply (Permutation_in _ (sort_insert_perm _ a l)) in Hx.
      destruct Hx as [<-|Hx]; [by apply Hasym|by apply Hb].
    + constructor; [constructor; [done|by apply List.Forall_forall]|].
      constructor; [done|].
      apply List.Forall_forall. intros x Hx.
      apply (Hneg a b x); auto.
Qed.

(** The sorted copy of values that the comparator orders consistently is in
    the order of the comparator. *)
Lemma js_sort_ascending (l : list num) :
  (∀ x, In x l → ok x) → ascending (js_sort (fun a b => num_sub a b) l).
Proof.
  induction l as [|a l IH]; intros Hl; simpl; [constructor|].
  fold (js_sort (fun a b => num_sub a b) l).
  apply sort_insert_ascending.
  - apply Hl. by left.
  - intros x Hx. apply (Permutation_in _ (js_sort_perm _ l)) in Hx.
    apply Hl. by right.
  - apply IH. intros x Hx. apply Hl. by right.
Qed.

(** When the comparator never ties two different values, the sorted copy is
    the only arrangement of the values in its order. *)
Lemma ascending_unique (l1 l2 : list num) :
  (∀ a b, In a l1 → In b l1 →
          sorts_after a b = false → sorts_after b a = false → a = b) →
  ascending l1 → ascending l2 → Permutation l1 l2 → l1 = l2.
Proof.
  intros Htie H1. revert l2.
  induction H1 as [|a l1 H1 IH Ha]; intros l2 H2 Hperm.
  - by apply Permutation_nil in Hperm.
  - destruct H2 as [|b l2 H2 Hb].
    + by apply Permutation_sym, Permutation_nil in Hperm.
    + rewrite List.Forall_forall in Ha, Hb.
      assert (Hab : a = b).
      { assert (Hina : In a (b :: l2))
          by (apply (Permutation_in _ Hperm); by left).
        assert (Hinb : In b (a :: l1))
          by (apply (Permutation_in _ (Permutation_sym Hperm)); by left).
        destruct Hina as [->|Hina]; [done|].
        destruct Hinb as [->|Hinb]; [done|].
        apply Htie; [by left|by right|by apply Ha|by apply Hb]. }
      subst b. f_equal. apply IH; [|done|].
      * intros x y Hx Hy. apply Htie; by right.
      * by apply Permutation_cons_inv in Hperm.
Qed.

End SortOrder.

(** * Doubles

    Facts of binary64 arithmetic that [describe] relies on, from the
    specification of the format in the standard library ([SpecFloat]): a
    finite number is a sign, a mantissa of at most 53 binary digits and an
    exponent from -1074 to 971, and every operation rounds the exact result
    to the nearest such number. *)

Module DoubleFacts.
Import PrimFloat SpecFloat FloatOps FloatAxioms.
Local Open Scope Z_scope.

(** *** The format *)

Lemma digits2_pos_bounds (m : positive) :
  2 ^ (Zpos (digits2_pos m) - 1) ≤ Zpos m < 2 ^ Zpos (digits2_pos m).
Proof.
  induction m as [m IH|m IH|]; simpl digits2_pos; [| |simpl; lia].
  - rewrite Pos2Z.inj_succ.
    replace (Z.succ (Zpos (digits2_pos m)) - 1)
      with (Z.succ (Zpos (digits2_pos m) - 1)) by lia.
    rewrite !Z.pow_succ_r by lia. lia.
  - rewrite Pos2Z.inj_succ.
    replace (Z.succ (Zpos (digits2_pos m)) - 1)
      with (Z.succ (Zpos (digits2_pos m) - 1)) by lia.
    rewrite !Z.pow_succ_r by lia. lia.
Qed.

(** A number of the format: its exponent is in range, its mantissa has at
    most 53 digits, and exactly 53 unless the exponent is the smallest. *)
Lemma valid_finite_bounds (s : bool) (m : positive) (e : Z) :
  valid_binary (S754_finite s m e) = true →
  -1074 ≤ e ≤ 971 ∧ Zpos (digits2_pos m) ≤ 53 ∧
  (-1074 < e → Zpos (digits2_pos m) = 53) ∧
  SpecFloat.fexp prec emax (Zpos (digits2_pos m) + e) = e.
Proof.
  unfold SpecFloat.valid_binary, bounded, canonical_mantissa, fexp.
  unfold SpecFloat.emin, prec, emax.
  intros Hv. apply andb_true_iff in Hv as [Hc Hb].
  apply Z.eqb_eq in Hc. apply Z.leb_le in Hb. lia.
Qed.

(** *** Rounding keeps the sign *)

Lemma shr_1_lower (mrs : shr_record) (c : Z) :
  0 ≤ c → 2 * c ≤ shr_m mrs → c ≤ shr_m (shr_1 mrs).
Proof. destruct mrs as [m r s]; destruct m as [|[p|p|]|p]; simpl; lia. Qed.

Lemma iter_shr_1_lower (p : positive) :
  ∀ (mrs : shr_record) (c : Z),
    0 ≤ c → 2 ^ Zpos p * c ≤ shr_m mrs → c ≤ shr_m (iter_pos shr_1 p mrs).
Proof.
  induction p as [p IH|p IH|]; intros mrs c Hc Hle; simpl.
  - assert (Hp : 0 < 2 ^ Zpos p) by (apply Z.pow_pos_nonneg; lia).
    apply IH; [done|]. apply IH; [nia|]. apply shr_1_lower; [nia|].
    replace (Zpos p~1) with (Zpos p + Zpos p + 1) in Hle by lia.
    rewrite !Z.pow_add_r in Hle by lia. lia.
  - assert (Hp : 0 < 2 ^ Zpos p) by (apply Z.pow_pos_nonneg; lia).
    apply IH; [done|]. apply IH; [nia|].
    replace (Zpos p~0) with (Zpos p + Zpos p) in Hle by lia.
    rewrite !Z.pow_add_r in Hle by lia. lia.
  - apply shr_1_lower; [done|]. simpl in Hle. lia.
Qed.

Lemma shr_record_of_loc_m (m : Z) (l : location) :
  shr_m (shr_record_of_loc m l) = m.
Proof. by destruct l as [|[]]. Qed.

Lemma shr_fexp_positive (m : positive) (e : Z) (l : location) :
  -1074 ≤ e →
  0 < shr_m (fst (shr_fexp prec emax (Zpos m) e l)) ∧
  -1074 ≤ snd (shr_fexp prec emax (Zpos m) e l).
Proof.
  intros He. unfold shr_fexp, shr.
  destruct (fexp prec emax (Zdigits2 (Zpos m) + e) - e) as [|p|p] eqn:Hn;
    cbn [fst snd]; rewrite ?shr_record_of_loc_m; try lia.
  split; [|lia].
  assert (1 ≤ shr_m (iter_pos shr_1 p (shr_record_of_loc (Zpos m) l))); [|lia].
  apply iter_shr_1_lower; [lia|]. rewrite shr_record_of_loc_m.
  pose proof (digits2_pos_bounds m) as [Hlo _].
  unfold fexp, SpecFloat.emin, prec, emax in Hn. simpl Zdigits2 in Hn.
  assert (Hp : Zpos p = Zpos (digits2_pos m) - 53) by lia.
  rewrite Z.mul_1_r, Hp.
  etransitivity; [|exact Hlo]. apply Z.pow_le_mono_r; lia.
Qed.

Lemma round_nearest_even_ge (m : Z) (l : location) :
  m ≤ round_nearest_even m l.
Proof.
  unfold round_nearest_even. destruct l as [|[]]; try lia.
  destruct (Z.even m); lia.
Qed.

(** Rounding a positive integer multiple of a power of two that is not
    below the smallest exponent never gives zero: it gives a positive number
    or [+Infinity]. *)
Lemma binary_round_aux_positive (m : positive) (e : Z) (l : location) :
  -1074 ≤ e →
  SFltb (S754_zero false) (binary_round_aux prec emax false (Zpos m) e l) = true.
Proof.
  intros He. unfold binary_round_aux.
  pose proof (shr_fexp_positive m e l He) as [Hm1 He1].
  destruct (shr_fexp prec emax (Zpos m) e l) as [mrs1 e1]. cbn [fst snd] in *.
  pose proof (round_nearest_even_ge (shr_m mrs1) (loc_of_shr_record mrs1)) as Hr.
  destruct (round_nearest_even _ _) as [|m2|m2]; try lia.
  pose proof (shr_fexp_positive m2 e1 loc_Exact He1) as [Hm2 He2].
  destruct (shr_fexp prec emax (Zpos m2) e1 loc_Exact) as [mrs2 e2].
  cbn [fst snd] in *.
  destruct (shr_m mrs2) as [|m3|m3]; try lia.
  by destruct (e2 <=? emax - prec).
Qed.

Lemma binary_round_positive (m : positive) (e : Z) :
  -1074 ≤ e →
  SFltb (S754_zero false) (binary_round prec emax false m e) = true.
Proof.
  intros He. unfold binary_round, shl_align.
  destruct (fexp prec emax (Zpos (digits2_pos m) + e) - e) as [|p|p] eqn:Hn;
    apply binary_round_aux_positive; try done.
  unfold fexp, SpecFloat.emin, prec, emax in *. lia.
Qed.

Lemma binary_round_negative (m : positive) (e : Z) :
  SFltb (S754_zero false) (binary_round prec emax true m e) = false.
Proof.
  unfold binary_round, binary_round_aux.
  destruct (shl_align _ _ _) as [mz ez].
  destruct (shr_fexp _ _ _ _ _) as [mrs1 e1].
  destruct (shr_fexp _ _ _ _ _) as [mrs2 e2].
  destruct (shr_m mrs2); [done| |done].
  by destruct (e2 <=? emax - prec).
Qed.

Lemma binary_normalize_sign (d e : Z) :
  -1074 ≤ e →
  SFltb (S754_zero false) (binary_normalize prec emax d e false) = (0 <? d).
Proof.
  intros He. destruct d as [|m|m]; simpl.
  - done.
  - by apply binary_round_positive.
  - apply binary_round_negative.
Qed.


(** *** Exact operations *)





(** [x - x] is [+0] for a finite [x]. *)
Lemma SFsub_diag (x : spec_float) :
  (∃ s, x = S754_zero s) ∨ (∃ s m e, x = S754_finite s m e) →
  SF64sub x x = S754_zero false.
Proof.
  intros [[s ->]|(s & m & e & ->)]; [by destruct s|].
  unfold SF64sub, SFsub. cbv zeta. by rewrite Z.sub_diag.
Qed.

(** *** The order of the doubles *)

Lemma SFltb_key (a b : spec_float) :
  a ≠ S754_nan → b ≠ S754_nan →
  SFltb a b = true ↔ key_lt (SFkey a) (SFkey b).
Proof.
  intros Ha Hb. unfold SFltb, SFcompare, key_lt.
  destruct a as [[]|[]| |[] ma ea]; try done;
    destruct b as [[]|[]| |[] mb eb]; try done; simpl;
    try (split; [discriminate|lia]); try (split; [lia|done]).
  - destruct (Z.compare_spec ea eb);
      [fold (Pos.compare ma mb); destruct (Pos.compare_spec ma mb)| |];
      simpl; split; (discriminate || lia || done).
  - destruct (Z.compare_spec ea eb);
      [fold (Pos.compare ma mb); destruct (Pos.compare_spec ma mb)| |];
      simpl; split; (discriminate || lia || done).
Qed.

Lemma SFleb_key (a b : spec_float) :
  a ≠ S754_nan → b ≠ S754_nan →
  SFleb a b = true ↔ ¬ key_lt (SFkey b) (SFkey a).
Proof.
  intros Ha Hb. unfold SFleb, SFcompare, key_lt.
  destruct a as [[]|[]| |[] ma ea]; try done;
    destruct b as [[]|[]| |[] mb eb]; try done; simpl;
    try (split; [discriminate|lia]); try (split; [lia|done]).
  - destruct (Z.compare_spec ea eb);
      [fold (Pos.compare ma mb); destruct (Pos.compare_spec ma mb)| |];
      simpl; split; (discriminate || lia || done).
  - destruct (Z.compare_spec ea eb);
      [fold (Pos.compare ma mb); destruct (Pos.compare_spec ma mb)| |];
      simpl; split; (discriminate || lia || done).
Qed.

Lemma shl_align_value (m : positive) (e e' : Z) :
  e' ≤ e → Zpos (fst (shl_align m e e')) = Zpos m * 2 ^ (e - e').
Proof.
  intros Hle. unfold shl_align.
  destruct (e' - e) as [|d|d] eqn:Hd; cbn [fst]; [|lia|].
  - replace (e - e') with 0 by lia. lia.
  - replace (e - e') with (Zpos d) by lia.
    rewrite <- Z.shiftl_mul_pow2 by lia.
    apply (Pos.iter_swap_gen _ _ Zpos xO (Z.mul 2)). reflexivity.
Qed.

(** The sign of the exact difference of two numbers is that of their
    order. *)
Lemma difference_sign (sx sy : bool) (mx my : positive) (ex ey : Z) :
  valid_binary (S754_finite sx mx ex) = true →
  valid_binary (S754_finite sy my ey) = true →
  0 < cond_Zopp sx (Zpos mx * 2 ^ (ex - Z.min ex ey)) -
      cond_Zopp sy (Zpos my * 2 ^ (ey - Z.min ex ey)) ↔
  key_lt (SFkey (S754_finite sy my ey)) (SFkey (S754_finite sx mx ex)).
Proof.
  intros Hx Hy.
  apply valid_finite_bounds in Hx as (Hex & Hdx & Hnx & _).
  apply valid_finite_bounds in Hy as (Hey & Hdy & Hny & _).
  pose proof (digits2_pos_bounds mx) as [Hlx Hux].
  pose proof (digits2_pos_bounds my) as [Hly Huy].
  assert (Hsmall : ∀ m : positive, Zpos (digits2_pos m) ≤ 53 →
            Zpos m < 2 ^ Zpos (digits2_pos m) → Zpos m < 2 ^ 53).
  { intros m Hd Hu. eapply Z.lt_le_trans; [exact Hu|].
    apply Z.pow_le_mono_r; lia. }
  pose proof (Hsmall mx Hdx Hux) as Hbx. pose proof (Hsmall my Hdy Huy) as Hby.
  assert (Hbig : ∀ k, 1 ≤ k → 2 ≤ 2 ^ k).
  { intros k Hk. change 2 with (2 ^ 1) at 1. apply Z.pow_le_mono_r; lia. }
  unfold key_lt. 
  destruct (Z.lt_trichotomy ex ey) as [Hlt|[Heq|Hgt]].
  - rewrite Z.min_l by lia. replace (ex - ex) with 0 by lia.
    rewrite Z.pow_0_r, Z.mul_1_r.
    pose proof (Hbig (ey - ex) ltac:(lia)) as Hp.
    rewrite Hny in Hly by lia. change (2 ^ (53 - 1)) with (2 ^ 52) in Hly.
    assert (Hy2 : 2 ^ 53 ≤ Zpos my * 2 ^ (ey - ex)).
    { change (2 ^ 53) with (2 ^ 52 * 2). apply Z.mul_le_mono_nonneg; lia. }
    destruct sx, sy; simpl; lia.
  - subst ey. rewrite Z.min_id. replace (ex - ex) with 0 by lia.
    rewrite Z.pow_0_r, !Z.mul_1_r. destruct sx, sy; simpl; lia.
  - rewrite Z.min_r by lia. replace (ey - ey) with 0 by lia.
    rewrite Z.pow_0_r, Z.mul_1_r.
    pose proof (Hbig (ex - ey) ltac:(lia)) as Hp.
    rewrite Hnx in Hlx by lia. change (2 ^ (53 - 1)) with (2 ^ 52) in Hlx.
    assert (Hx2 : 2 ^ 53 ≤ Zpos mx * 2 ^ (ex - ey)).
    { change (2 ^ 53) with (2 ^ 52 * 2). apply Z.mul_le_mono_nonneg; lia. }
    destruct sx, sy; simpl; lia.
Qed.

(** [a - b > 0] exactly when [b < a], for numbers other than [NaN]: a
    difference of two different numbers is never rounded to zero. *)
Lemma SFsub_sign (a b : spec_float) :
  valid_binary a = true → valid_binary b = true →
  a ≠ S754_nan → b ≠ S754_nan →
  SFltb (S754_zero false) (SF64sub a b) = true ↔ key_lt (SFkey b) (SFkey a).
Proof.
  intros Hva Hvb Ha Hb. unfold SF64sub, SFsub, key_lt.
  destruct a as [[]|[]| |sx mx ex]; try done;
    destruct b as [[]|[]| |sy my ey]; try done;
    try (simpl; split; (discriminate || lia || done));
    try (destruct sx; simpl; split; (discriminate || lia || done));
    try (destruct sy; simpl; split; (discriminate || lia || done)).
  pose proof (valid_finite_bounds _ _ _ Hva) as (Hex & _).
  pose proof (valid_finite_bounds _ _ _ Hvb) as (Hey & _).
  cbv zeta. rewrite binary_normalize_sign by lia.
  rewrite !shl_align_value by lia.
  rewrite Z.ltb_lt. by apply difference_sign.
Qed.

End DoubleFacts.

(** ** The same facts on the primitive doubles *)

Module DoublePrims.
Import PrimFloat SpecFloat FloatOps FloatAxioms DoubleFacts.
Local Open Scope Z_scope.

Lemma Prim2SF_nan (x : float) :
  is_nan x = false ↔ Prim2SF x ≠ S754_nan.
Proof.
  unfold Prim2SF. destruct (is_nan x); [split; [discriminate|by intros []]|].
  split; [|done]. intros _.
  destruct (is_zero x); [done|]. destruct (is_infinity x); [done|].
  destruct (Z.frexp x) as [r exp].
  destruct (shr_fexp _ _ _ _ _) as [shr e'].
  by destruct (shr_m shr).
Qed.

Lemma ltb_key (a b : float) :
  is_nan a = false → is_nan b = false →
  ltb a b = true ↔ key_lt (SFkey (Prim2SF a)) (SFkey (Prim2SF b)).
Proof.
  intros Ha Hb. rewrite ltb_spec. apply SFltb_key; by apply Prim2SF_nan.
Qed.

Lemma leb_key (a b : float) :
  is_nan a = false → is_nan b = false →
  leb a b = true ↔ ¬ key_lt (SFkey (Prim2SF b)) (SFkey (Prim2SF a)).
Proof.
  intros Ha Hb. rewrite leb_spec. apply SFleb_key; by apply Prim2SF_nan.
Qed.

(** The comparator of [describe] on numbers other than [NaN]:
    [a - b > 0] exactly when [b < a]. *)
Lemma sub_positive_key (a b : float) :
  is_nan a = false → is_nan b = false →
  ltb zero (sub a b) = true ↔ key_lt (SFkey (Prim2SF b)) (SFkey (Prim2SF a)).
Proof.
  intros Ha Hb. rewrite ltb_spec, sub_spec.
  change (Prim2SF zero) with (S754_zero false).
  apply SFsub_sign; try apply Prim2SF_valid; by apply Prim2SF_nan.
Qed.

Lemma sub_positive_leb (a b : float) :
  is_nan a = false → is_nan b = false →
  ltb zero (sub a b) = false ↔ leb a b = true.
Proof.
  intros Ha Hb. rewrite leb_key by done.
  rewrite <- sub_positive_key by done.
  by destruct (ltb zero (sub a b)).
Qed.


Lemma Prim2SF_finite (x : float) :
  is_finite x = true →
  (∃ s, Prim2SF x = S754_zero s) ∨ (∃ s m e, Prim2SF x = S754_finite s m e).
Proof.
  unfold is_finite, Prim2SF.
  destruct (is_nan x); [done|]. destruct (is_infinity x); [done|]. intros _.
  destruct (is_zero x); [eauto|].
  destruct (Z.frexp x) as [r exp].
  destruct (shr_fexp _ _ _ _ _) as [shr e'].
  destruct (shr_m shr); eauto 6.
Qed.


(** [x - x] is [+0], for a finite [x]. *)
Lemma sub_diag (x : float) : is_finite x = true → sub x x = zero.
Proof.
  intros Hx. apply Prim2SF_inj. rewrite sub_spec.
  change (Prim2SF zero) with (S754_zero false).
  by apply SFsub_diag, Prim2SF_finite.
Qed.


End DoublePrims.

(** * [describe] on doubles *)

Module DoubleDescribe.
Import PrimFloat SpecFloat FloatOps FloatAxioms DoubleFacts DoublePrims.

Lemma key_lt_asym (a b : Z * Z * Z) : key_lt a b → ¬ key_lt b a.
Proof. unfold key_lt. lia. Qed.

Lemma key_lt_negtrans (a b c : Z * Z * Z) :
  ¬ key_lt b a → ¬ key_lt c b → ¬ key_lt c a.
Proof. unfold key_lt. lia. Qed.

Lemma sorts_after_key (a b : float) :
  is_nan a = false → is_nan b = false →
  sorts_after a b = true ↔ key_lt (SFkey (Prim2SF b)) (SFkey (Prim2SF a)).
Proof. apply sub_positive_key. Qed.

Lemma sorts_after_leb (a b : float) :
  is_nan a = false → is_nan b = false →
  sorts_after a b = false ↔ leb a b = true.
Proof. apply sub_positive_leb. Qed.

(** On numbers other than [NaN] the comparator [(a, b) => a - b] is
    consistent: it orders them as [<] does. *)
Lemma double_comparator_consistent :
  consistent_comparator (fun x : float => is_nan x = false).
Proof.
  split.
  - intros a b Ha Hb Hab. apply sorts_after_key in Hab; [|done..].
    destruct (sorts_after b a) eqn:Hba; [|done].
    apply sorts_after_key in Hba; [|done..]. by apply key_lt_asym in Hab.
  - intros a b c Ha Hb Hc Hab Hbc.
    destruct (sorts_after a c) eqn:Hac; [|done].
    apply sorts_after_key in Hac; [|done..].
    exfalso. revert Hac.
    apply (key_lt_negtrans _ (SFkey (Prim2SF b))).
    + intros Hk. apply sorts_after_key in Hk; [|done..]. congruence.
    + intros Hk. apply sorts_after_key in Hk; [|done..]. congruence.
Qed.

Lemma leb_refl (x : float) : is_nan x = false → leb x x = true.
Proof. intros Hx. apply leb_key; [done..|]. unfold key_lt. lia. Qed.

(** The sorted copy that [describe] makes of an array without [NaN]. *)
Lemma js_sort_sorted_copy (S : list float) :
  no_nan S → sorted_copy (js_sort (fun a b => num_sub a b) S) S.
Proof.
  intros Hnan. unfold no_nan in Hnan. rewrite List.Forall_forall in Hnan.
  split; [apply js_sort_perm|].
  apply (strongly_sorted_impl (fun a b => sorts_after a b = false) _
           (fun x => is_nan x = false)).
  - intros a b Ha Hb. by apply sorts_after_leb.
  - intros x Hx. apply Hnan.
    eapply Permutation_in; [apply js_sort_perm|exact Hx].
  - by apply (js_sort_ascending _ double_comparator_consistent).
Qed.

(** In a sorted sequence without [NaN], an element is at most any element
    at the same or at a later position. *)
Lemma sorted_nth_leb (l : list float) (i j : nat) :
  (∀ x, In x l → is_nan x = false) →
  StronglySorted (fun a b => leb a b = true) l →
  i ≤ j → j < length l → leb (nth i l nan) (nth j l nan) = true.
Proof.
  intros Hnan Hsorted Hij Hj.
  destruct (decide (i = j)) as [->|Hne].
  - apply leb_refl, Hnan, nth_In, Hj.
  - apply (strongly_sorted_nth _ _ _ _ _ Hsorted); lia.
Qed.




End DoubleDescribe.



(** ** Running the code on doubles *)

Module DoubleRuns.
Import PrimFloat.

(** The examples of the specification for the median. *)
Example describe_four_values :
  describe [1; 2; 3; 4]%float =
  Resolved (mkStatisticsResult 2.5 2.5 (sqrt 1.25) 4 1)%float.
Proof. vm_compute. reflexivity. Qed.

Example describe_three_values_median :
  match describe [3; 1; 2]%float with
  | Resolved r => median r = 2%float ∧ max r = 3%float ∧ min r = 1%float
  | Rejected _ => False
  end.
Proof. vm_compute. auto. Qed.

Example describe_single_value :
  describe [7.25]%float = Resolved (mkStatisticsResult 7.25 7.25 0 7.25 7.25)%float.
Proof. vm_compute. reflexivity. Qed.


(** Rounding: the three values below sum to 1, yet the sum that [describe]
    takes over the sorted copy is 0, and so is the average. *)
Example describe_average_rounds :
  match describe [1e16; -1e16; 1]%float with
  | Resolved r =>
      average r = 0%float ∧ median r = 1%float ∧
      max r = 1e16%float ∧ min r = (-1e16)%float
  | Rejected _ => False
  end.
Proof. vm_compute. auto. Qed.

Example describe_no_value :
  describe (@nil float) = Rejected EmptyInput.
Proof. reflexivity. Qed.

(** The evaluation scenario of the specification: scores [1, 1] with average
    1 and standard deviation 0; every series has 1 × 2 entries. *)
Example red_fruit_run :
  match run ticking_clock red_fruit_eval echo_invoker (mkSt 0%float []) with
  | (Resolved res, st') =>
      values (res_scores res) = [1; 1]%float ∧
      average (stats (res_scores res)) = 1%float ∧
      std (stats (res_scores res)) = 0%float ∧
      values (res_executionTimes res) = [1.5; 1.5]%float ∧
      values (res_promptTokens res) = [12; 12]%float ∧
      values (res_completionTokens res) = [5; 5]%float ∧
      length (res_responses res) = 2 ∧
      world st' = 6%float
  | (Rejected _, _) => False
  end.
Proof. vm_compute. repeat split; reflexivity. Qed.

(** The two zeros are equal for the comparator, and a stable sort leaves
    them in their order: the max of [0, -0] is [-0], that of [-0, 0] is
    [0]. *)
Example describe_signed_zeros :
  match describe [zero; neg_zero], describe [neg_zero; zero] with
  | Resolved r, Resolved r' =>
      max r = neg_zero ∧ min r = zero ∧ max r' = zero ∧ min r' = neg_zero
  | _, _ => False
  end.
Proof. vm_compute. auto. Qed.

(** Rounding again, with the double that [0.1] denotes: the average of three
    times 0.1 is above 0.1, the max; and the standard deviation is not 0
    although all values are equal. *)
Example describe_average_above_max :
  match describe [0x1.999999999999ap-4; 0x1.999999999999ap-4;
                  0x1.999999999999ap-4]%float with
  | Resolved r =>
      max r = 0x1.999999999999ap-4%float ∧
      ltb (max r) (average r) = true ∧
      ltb zero (std r) = true
  | Rejected _ => False
  end.
Proof. vm_compute. auto. Qed.

End DoubleRuns.

(** * Further properties of [output.ts] *)

Section StringFacts.

Lemma string_app_cons (ch : ascii) (a b : string) :
  String ch a +:+ b = String ch (a +:+ b).
Proof. reflexivity. Qed.

Lemma string_length_app (a b : string) :
  String.length (a +:+ b) = String.length a + String.length b.
Proof.
  induction a as [|ch a IH]; [done|].
  rewrite string_app_cons. simpl. by rewrite IH.
Qed.

Lemma string_app_assoc (a b c : string) :
  (a +:+ b) +:+ c = a +:+ (b +:+ c).
Proof.
  induction a as [|ch a IH]; [done|].
  rewrite !string_app_cons. by rewrite IH.
Qed.

Lemma repeat_string_length (s : string) (n : nat) :
  String.length (repeat_string s n) = n * String.length s.
Proof.
  induction n as [|n IH]; simpl; [done|].
  by rewrite string_length_app, IH.
Qed.

End StringFacts.

Section OutputExtras.
Context {World : Type}.

(** X1: on a terminal [c] columns wide, [writeHeader] writes one chunk: the
    green colour code, a line break, a line made of two dashes, the header
    and a filling of dashes that is exactly [c] characters long, and a line
    break -- provided the header and its two dashes fit.  If they do not
    fit, it throws a [RangeError] and writes nothing.  When standard output
    is not a terminal, the line has no filling. *)
Theorem writeHeader_fills_the_width (c : Z) (header : string) (st : St World) :
  ((Z.of_nat (String.length header) + 2 ≤ c)%Z →
   writeHeader (Some c) header st =
     (Resolved tt,
      mkSt (world st)
        (stdout st ++ [ESC +:+ "[32m" +:+ NL +:+ header_line c header +:+ NL])) ∧
   Z.of_nat (String.length (header_line c header)) = c) ∧
  ((c < Z.of_nat (String.length header) + 2)%Z →
   writeHeader (Some c) header st =
     (Rejected (RangeError (c - Z.of_nat (String.length header) - 2)), st)) ∧
  writeHeader None header st =
    (Resolved tt,
     mkSt (world st)
       (stdout st ++ [ESC +:+ "[32m" +:+ NL +:+ ("--" +:+ header) +:+ NL])).
Proof.
  split; [|split].
  - intros Hfit. split.
    + rewrite (writeHeader_fits (Some c)) by done.
      unfold header_text, header_line.
      by rewrite !string_app_assoc.
    + unfold header_line.
      rewrite !string_length_app, repeat_string_length. simpl. lia.
  - intros Hnarrow. by apply writeHeader_narrow.
  - rewrite (writeHeader_fits None) by done.
    unfold header_text. by rewrite !string_app_assoc.
Qed.

(** X2: [writehr] never fails on a terminal (a width of 0 or more): it writes
    one chunk, the cyan colour code, a line break, a rule of exactly as many
    dashes as the terminal has columns, and a line break.  When standard
    output is not a terminal the rule is empty. *)
Theorem writehr_spans_the_width (c : Z) (st : St World) :
  ((0 ≤ c)%Z →
   writehr (Some c) st =
     (Resolved tt,
      mkSt (world st)
        (stdout st ++
         [ESC +:+ "[36m" +:+ NL +:+ repeat_string "-" (Z.to_nat c) +:+ NL])) ∧
   Z.of_nat (String.length (repeat_string "-" (Z.to_nat c))) = c) ∧
  writehr None st =
    (Resolved tt, mkSt (world st) (stdout st ++ [ESC +:+ "[36m" +:+ NL +:+ NL])).
Proof.
  split; [|reflexivity].
  intros Hc. split.
  - unfold writehr, bind, lift, js_repeat.
    destruct (Z.ltb_spec c 0); [lia|done].
  - rewrite repeat_string_length. simpl. lia.
Qed.

End OutputExtras.

(** * Further properties of [lamp.ts] *)

Section LampExtras.
Context {num U World Args : Type}.
Variable generateText :
  gmap string Val → World → Outcome (GenText num) * World.
Variable generateObject :
  gmap string Val → World → Outcome (GenObject num U) * World.
Variable json_stringify : U → Outcome (option string).
Variable columns : option Z.

Abbreviation lamp'' :=
  (lamp (Args := Args) generateText generateObject json_stringify columns).

(** X3: the result of a call is what the capability generated, passed on
    unchanged: in text mode its text and usage, in object mode its object
    and usage.  A call that resolves after the capability answered resolves
    with exactly that; it does resolve whenever the trace, if any, can be
    written (the debug flag is off; or the headers fit and, in object mode,
    [JSON.stringify] does not throw on the object); and whatever the
    outcome, the world is left as the capability left it. *)
Theorem lamp_returns_generation (config : gmap string Val)
    (promptFn : Args → PromptOut) (args : Args) (st : St World) :
  (∀ g w',
     truthy (get config "schema") = false →
     generateText (call_options (forwarded_call config (promptFn args)))
       (world st) = (Resolved g, w') →
     world (snd (lamp'' config promptFn args st)) = w' ∧
     (∀ r, fst (lamp'' config promptFn args st) = Resolved r →
           r = mkLResult (Some (gt_text g)) None (gt_usage g)) ∧
     (truthy (get config "debug") = false ∨ header_fits columns →
      fst (lamp'' config promptFn args st) =
        Resolved (mkLResult (Some (gt_text g)) None (gt_usage g)))) ∧
  (∀ g w',
     truthy (get config "schema") = true →
     generateObject (call_options (forwarded_call config (promptFn args)))
       (world st) = (Resolved g, w') →
     world (snd (lamp'' config promptFn args st)) = w' ∧
     (∀ r, fst (lamp'' config promptFn args st) = Resolved r →
           r = mkLResult None (Some (go_object g)) (go_usage g)) ∧
     (truthy (get config "debug") = false ∨
        (header_fits columns ∧
         ∃ output, json_stringify (go_object g) = Resolved output) →
      fst (lamp'' config promptFn args st) =
        Resolved (mkLResult None (Some (go_object g)) (go_usage g)))).
Proof.
  split; intros g w' Hs; unfold forwarded_call; rewrite Hs;
    cbn [call_options]; intros Hgen.
  - rewrite lamp_text_call, Hgen by done.
    split; [by rewrite after_generation_world|]. split.
    + intros r Hr.
      destruct (after_generation _ _ _ _ _ _) as [o st'] eqn:Hafter.
      simpl in Hr. subst o.
      by apply after_generation_resolved in Hafter as [-> _].
    + intros Hok.
      destruct (after_generation_fits json_stringify columns config
                  (promptFn args)
                  (mkLResult (Some (gt_text g)) None (gt_usage g))
                  (mkSt w' (stdout st))) as [out ->]; [|done].
      destruct Hok as [Hoff|Hfit]; [by left|right].
      by apply text_trace_writable.
  - rewrite lamp_object_call, Hgen by done.
    split; [by rewrite after_generation_world|]. split.
    + intros r Hr.
      destruct (after_generation _ _ _ _ _ _) as [o st'] eqn:Hafter.
      simpl in Hr. subst o.
      by apply after_generation_resolved in Hafter as [-> _].
    + intros Hok.
      destruct (after_generation_fits json_stringify columns config
                  (promptFn args)
                  (mkLResult None (Some (go_object g)) (go_usage g))
                  (mkSt w' (stdout st))) as [out ->]; [|done].
      destruct Hok as [Hoff|[Hfit Hjson]]; [by left|right]. by split.
Qed.

(** X4: without the debug flag a call writes nothing to standard output,
    whatever the capability does. *)
Theorem lamp_silent_without_debug (config : gmap string Val)
    (promptFn : Args → PromptOut) (args : Args) (st : St World) :
  truthy (get config "debug") = false →
  stdout (snd (lamp'' config promptFn args st)) = stdout st.
Proof.
  intros Hdbg.
  destruct (truthy (get config "schema")) eqn:Hs.
  - rewrite lamp_object_call by done.
    destruct (generateObject _ _) as [[g|e] w']; [|done].
    unfold after_generation. by rewrite Hdbg.
  - rewrite lamp_text_call by done.
    destruct (generateText _ _) as [[g|e] w']; [|done].
    unfold after_generation. by rewrite Hdbg.
Qed.

(** X5: with the debug flag set and headers that fit, a call whose
    generation succeeded resolves with the generated result after it has
    appended exactly one trace to standard output: the Prompt header, the
    system message if it is a non-empty string, the user prompt, the Output
    header, and then the generated text if it is not empty (text mode) or
    what [JSON.stringify] returned for the generated object (object mode,
    when [JSON.stringify] does not throw). *)
Theorem debug_trace_shows_generation (config : gmap string Val)
    (promptFn : Args → PromptOut) (args : Args) (st : St World) :
  truthy (get config "debug") = true →
  header_fits columns →
  (∀ g w',
     truthy (get config "schema") = false →
     generateText (call_options (forwarded_call config (promptFn args)))
       (world st) = (Resolved g, w') →
     lamp'' config promptFn args st =
       (Resolved (mkLResult (Some (gt_text g)) None (gt_usage g)),
        mkSt w'
          (stdout st ++
           trace_lines columns (system_of (promptFn args))
             (prompt_of (promptFn args))
             (if String.eqb (gt_text g) "" then None else Some (gt_text g))))) ∧
  (∀ g w' output,
     truthy (get config "schema") = true →
     generateObject (call_options (forwarded_call config (promptFn args)))
       (world st) = (Resolved g, w') →
     json_stringify (go_object g) = Resolved output →
     lamp'' config promptFn args st =
       (Resolved (mkLResult None (Some (go_object g)) (go_usage g)),
        mkSt w'
          (stdout st ++
           trace_lines columns (system_of (promptFn args))
             (prompt_of (promptFn args)) output))).
Proof.
  intros Hdbg Hfit. split.
  - intros g w' Hs. unfold forwarded_call. rewrite Hs. cbn [call_options].
    intros Hgen. rewrite lamp_text_call, Hgen by done.
    unfold after_generation.
    by rewrite Hdbg, trace_output_text, logMessages_fits.
  - intros g w' output Hs. unfold forwarded_call. rewrite Hs.
    cbn [call_options]. intros Hgen Hjson.
    rewrite lamp_object_call, Hgen by done.
    unfold after_generation.
    by rewrite Hdbg, trace_output_object, Hjson, logMessages_fits.
Qed.

(** X6: for a configuration with no [system] property of its own, an empty
    system message is sent to the capability as the empty string, where a
    bare prompt sends [undefined] (with a [system] property in the
    configuration both calls send that property).  In every other respect
    -- the result, the trace, the state -- a call with the pair
    [{ system: "", prompt }] is the call with the bare prompt, as long as the
    capability answers both alike: the trace has no system section for an
    empty system message. *)
Theorem empty_system_message (config : gmap string Val)
    (withSystem bare : Args → PromptOut) (args : Args) (p : string)
    (st : St World) :
  withSystem args = Pair "" p →
  bare args = Bare p →
  (config !! "system" = None →
   call_options (forwarded_call config (withSystem args)) !! "system" =
     Some (VStr "") ∧
   call_options (forwarded_call config (bare args)) !! "system" =
     Some VUndef) ∧
  (∀ v, config !! "system" = Some v →
   call_options (forwarded_call config (withSystem args)) !! "system" =
     Some v ∧
   call_options (forwarded_call config (bare args)) !! "system" = Some v) ∧
  (generateText (call_options (forwarded_call config (withSystem args)))
     (world st) =
   generateText (call_options (forwarded_call config (bare args)))
     (world st) →
   generateObject (call_options (forwarded_call config (withSystem args)))
     (world st) =
   generateObject (call_options (forwarded_call config (bare args)))
     (world st) →
   lamp'' config withSystem args st = lamp'' config bare args st).
Proof.
  intros Hw Hb.
  split; [|split].
  - intros Hsys. rewrite !forwarded_call_system by done. by rewrite Hw, Hb.
  - intros v Hsys. split; by apply forwarded_call_setting.
  - unfold forwarded_call.
    destruct (truthy (get config "schema")) eqn:Hs; cbn [call_options];
      intros HT HO.
    + rewrite (lamp_object_call _ _ _ _ config withSystem) by done.
      rewrite (lamp_object_call _ _ _ _ config bare) by done.
      rewrite HO. clear HT HO.
      destruct (generateObject _ _) as [[g|e] w']; [|done].
      unfold after_generation, logMessages. by rewrite Hw, Hb.
    + rewrite (lamp_text_call _ _ _ _ config withSystem) by done.
      rewrite (lamp_text_call _ _ _ _ config bare) by done.
      rewrite HT. clear HT HO.
      destruct (generateText _ _) as [[g|e] w']; [|done].
      unfold after_generation, logMessages. by rewrite Hw, Hb.
Qed.

End LampExtras.

Section DebugKey.

Lemma rest_insert_setting (config : gmap string Val) (k : string) (v : Val) :
  k ≠ "model" → k ≠ "schema" →
  rest (<[k := v]> config) ["model"; "schema"] =
  <[k := v]> (rest config ["model"; "schema"]).
Proof.
  intros Hm Hs. unfold rest; simpl.
  rewrite (delete_insert_ne _ "schema" k) by done.
  by rewrite (delete_insert_ne _ "model" k).
Qed.

(** X7: setting the debug flag in a configuration changes the options object
    handed to the capability at one property only, [debug]; the capability
    called is the same. *)
Theorem debug_flag_only_adds_debug (config : gmap string Val) (v : Val)
    (prompts : PromptOut) :
  call_options (forwarded_call (<["debug" := v]> config) prompts) =
    <["debug" := v]> (call_options (forwarded_call config prompts)) ∧
  match forwarded_call (<["debug" := v]> config) prompts,
        forwarded_call config prompts with
  | TextCall _, TextCall _ => True
  | ObjectCall _, ObjectCall _ => True
  | _, _ => False
  end.
Proof.
  unfold forwarded_call, get.
  rewrite !lookup_insert_ne by done.
  rewrite rest_insert_setting by done.
  destruct (truthy (default VUndef (config !! "schema")));
    (split; [|done]); cbn [call_options];
    unfold object_options, text_options, spread;
    by rewrite insert_union_l.
Qed.

End DebugKey.

(** * Further properties of [describe] *)

Section DescribeAnyNumber.
Context {num : Type} `{JSNumber num}.

(** X8: whatever the numbers are (doubles with [NaN] among them included),
    [describe] on a non-empty array resolves, and its max and its min are
    elements of the array; so is its median when the length is odd. *)
Theorem describe_picks_elements (numbers : list num) :
  numbers ≠ [] →
  ∃ r,
    describe numbers = Resolved r ∧
    In (max r) numbers ∧
    In (min r) numbers ∧
    (Nat.odd (length numbers) = true → In (median r) numbers).
Proof.
  intros Hne. destruct numbers as [|x0 S0]; [done|].
  unfold describe.
  change (Nat.eqb (length (x0 :: S0)) 0) with false. cbv iota.
  set (sorted := js_sort (fun a b => num_sub a b) (x0 :: S0)).
  pose proof (js_sort_perm (fun a b => num_sub a b) (x0 :: S0)) as Hperm.
  fold sorted in Hperm.
  pose proof (Permutation_length Hperm) as Hlen. simpl in Hlen.
  assert (Hin : ∀ i, i < length sorted → In (nth i sorted num_undef) (x0 :: S0)).
  { intros i Hi. apply (Permutation_in _ Hperm). by apply nth_In. }
  eexists. split; [reflexivity|].
  cbn [max min median]. unfold at_index.
  split; [apply Hin; lia|]. split; [apply Hin; lia|].
  intros Hodd. rewrite mod2_even.
  change (length (x0 :: S0)) with (S (length S0)) in Hodd.
  rewrite <- Hlen, <- Nat.negb_even in Hodd.
  destruct (Nat.even (length sorted)); [done|].
  apply Hin. apply Nat.div_lt; lia.
Qed.

End DescribeAnyNumber.



(** * Further properties of [describe] on doubles *)

Module DoubleExtras.
Import PrimFloat SpecFloat FloatOps FloatAxioms DoubleFacts DoublePrims.
Import DoubleDescribe.

Lemma SFkey_inj (a b : spec_float) :
  a ≠ S754_nan → b ≠ S754_nan →
  a ≠ S754_zero true → b ≠ S754_zero true →
  SFkey a = SFkey b → a = b.
Proof.
  intros Ha Hb Ha0 Hb0.
  destruct a as [[]|[]| |[] ma ea]; try done;
    destruct b as [[]|[]| |[] mb eb]; try done; simpl;
    intros Hk; try discriminate Hk;
    injection Hk as He Hm; subst; f_equal; lia.
Qed.

Lemma not_neg_zero (x : float) : x ≠ neg_zero → Prim2SF x ≠ S754_zero true.
Proof.
  intros Hx E. apply Hx. rewrite <- (SF2Prim_Prim2SF x), E. reflexivity.
Qed.

(** The comparator ties no two different numbers, [NaN] and [-0] aside. *)
Lemma tie_same (a b : float) :
  is_nan a = false → is_nan b = false → a ≠ neg_zero → b ≠ neg_zero →
  sorts_after a b = false → sorts_after b a = false → a = b.
Proof.
  intros Ha Hb Ha0 Hb0 Hab Hba.
  apply Prim2SF_inj, SFkey_inj;
    try (by apply Prim2SF_nan); try (by apply not_neg_zero).
  assert (H1 : ¬ key_lt (SFkey (Prim2SF b)) (SFkey (Prim2SF a))).
  { intros Hk. apply sorts_after_key in Hk; [|done..]. congruence. }
  assert (H2 : ¬ key_lt (SFkey (Prim2SF a)) (SFkey (Prim2SF b))).
  { intros Hk. apply sorts_after_key in Hk; [|done..]. congruence. }
  unfold key_lt in H1, H2.
  destruct (SFkey (Prim2SF a)) as [[a1 a2] a3].
  destruct (SFkey (Prim2SF b)) as [[b1 b2] b3].
  simpl in H1, H2. f_equal; [f_equal|]; lia.
Qed.

(** X9: on doubles, for arrays that hold neither [NaN] nor [-0], the
    statistics do not depend on the order of the input: two arrays with the
    same elements, each as many times, get the same record (or both fail,
    when empty). *)
Theorem describe_order_independent (S S' : list float) :
  Forall (fun x => is_nan x = false ∧ x ≠ neg_zero) S →
  Permutation S S' →
  describe S = describe S'.
Proof.
  intros Hall Hperm. rewrite List.Forall_forall in Hall.
  assert (Hall' : ∀ x, In x S' → is_nan x = false ∧ x ≠ neg_zero).
  { intros x Hx. by apply Hall, (Permutation_in _ (Permutation_sym Hperm)). }
  destruct S as [|x S0]; [by apply Permutation_nil in Hperm as ->|].
  destruct S' as [|y S0'];
    [by apply Permutation_sym, Permutation_nil in Hperm|].
  rewrite !describe_sorted by done. cbv zeta.
  assert (Heq : js_sort (fun a b => num_sub a b) (x :: S0) =
                js_sort (fun a b => num_sub a b) (y :: S0')).
  { apply ascending_unique.
    - intros a b Hina Hinb.
      apply (Permutation_in _ (js_sort_perm _ _)) in Hina, Hinb.
      destruct (Hall a Hina), (Hall b Hinb). by apply tie_same.
    - apply (js_sort_ascending _ double_comparator_consistent).
      intros z Hz. by apply Hall.
    - apply (js_sort_ascending _ double_comparator_consistent).
      intros z Hz. by apply Hall'.
    - by rewrite !js_sort_perm. }
  by rewrite Heq, (Permutation_length Hperm).
Qed.

(** [Math.sqrt] never returns a number below zero. *)
Lemma sqrt_not_negative (x : float) : ltb (sqrt x) zero = false.
Proof.
  rewrite ltb_spec, sqrt_spec. change (Prim2SF zero) with (S754_zero false).
  unfold SF64sqrt, SFsqrt.
  destruct (Prim2SF x) as [[]|[]| |[] m e]; try done.
  destruct (SFsqrt_core_binary _ _ _ _) as [[mz ez] lz].
  unfold binary_round_aux.
  destruct (shr_fexp _ _ _ _ _) as [mrs1 e1].
  destruct (shr_fexp _ _ _ _ _) as [mrs2 e2].
  destruct (shr_m mrs2); [done| |done].
  by destruct (e2 <=? emax - prec)%Z.
Qed.

(** X10: on doubles, the standard deviation of a non-empty array is never
    below zero (it is zero or more, or [NaN]); and for an array without
    [NaN] the min is at most the max and, when the length is odd, the
    median lies between them. *)
Theorem describe_bounds (S : list float) :
  S ≠ [] →
  ∃ r,
    describe S = Resolved r ∧
    ltb (std r) zero = false ∧
    (no_nan S →
       leb (min r) (max r) = true ∧
       (Nat.odd (length S) = true →
          leb (min r) (median r) = true ∧ leb (median r) (max r) = true)).
Proof.
  intros Hne.
  assert (Hpos : 0 < length S) by (destruct S; [done|simpl; lia]).
  eexists. split; [by apply describe_sorted|].
  cbv zeta. cbn [average median std max min].
  split; [apply sqrt_not_negative|].
  intros Hnan. pose proof (js_sort_sorted_copy S Hnan) as [Hperm Hsorted].
  pose proof (js_sort_length (fun a b : float => num_sub a b) S) as Hlen.
  unfold no_nan in Hnan. rewrite List.Forall_forall in Hnan.
  assert (Hok : ∀ x, In x (js_sort (fun a b => num_sub a b) S) →
                     is_nan x = false).
  { intros x Hx. apply Hnan. by apply (Permutation_in _ Hperm). }
  split; [apply sorted_nth_leb; (done || lia)|].
  intros Hodd. unfold median_of_sorted.
  rewrite Hlen, <- Nat.negb_odd, Hodd. cbn [negb].
  assert (Hhalf : length S / 2 < length S) by (apply Nat.div_lt; lia).
  split; apply sorted_nth_leb; (done || lia).
Qed.

Lemma describe_order_independent_witness :
  describe [3; 1; 2]%float = describe [1; 2; 3]%float.
Proof.
  apply describe_order_independent.
  - repeat constructor; intros Heq; apply (f_equal is_zero) in Heq;
      vm_compute in Heq; discriminate.
  - apply (Permutation_cons_app [1%float; 2%float] [] 3%float).
    apply Permutation_refl.
Defined.

Lemma describe_bounds_witness :
  ∃ r,
    describe [3; 1; 2]%float = Resolved r ∧
    ltb (std r) zero = false ∧
    leb (min r) (max r) = true ∧
    leb (min r) (median r) = true ∧ leb (median r) (max r) = true.
Proof.
  destruct (describe_bounds [3; 1; 2]%float) as (r & Hd & Hstd & Hrest);
    [discriminate|].
  destruct Hrest as [Hmm Hmed]; [repeat constructor|].
  exists r. split; [exact Hd|]. split; [exact Hstd|]. split; [exact Hmm|].
  apply Hmed. reflexivity.
Defined.

End DoubleExtras.

(** * Further properties of [Evaluator.run] *)

Section RunExtras.
Context {num U World P : Type} `{JSNumber num}.
Variable performance_now : World → num * World.

Abbreviation cfgX := (Config (num := num) (U := U) (World := World) (P := P)).
Abbreviation fnX := (P → M World (LResult num U)).

(** Loops that ran to their end ran a chain of resolved trials. *)
Lemma loops_resolved_chain (config : cfgX) (fn : fnX)
    (sched : list (TestCase P * nat)) (acc acc' : Acc) (st st' : St World) :
  for_of sched (fun ti acc => trial performance_now config fn (fst ti) acc)
    acc st = (Resolved acc', st') →
  ∃ log,
    trials_chain performance_now config fn sched st log st' ∧
    acc' = fold_left (record_trial config) log acc.
Proof.
  revert acc st. induction sched as [|[tc i] sched IH]; intros acc st; simpl.
  - unfold ret. intros [= <- <-]. exists []. split; [constructor|done].
  - unfold bind. rewrite trial_one_trial.
    destruct (one_trial _ _ _ _ _) as [[tr|e] st1] eqn:Htrial; [|done].
    intros Hrest. destruct (IH _ _ Hrest) as (log & Hchain & ->).
    exists (tr :: log). split; [econstructor; eauto|done].
Qed.

(** What a run that resolved has done and returned. *)
Lemma run_resolved_inv (config : cfgX) (fn : fnX) (st st' : St World)
    (res : EvalResult num U P) :
  run performance_now config fn st = (Resolved res, st') →
  ∃ log s e p c,
    trials_chain performance_now config fn
      (schedule (testCases config) (Z.to_nat (iterations config))) st log st' ∧
    describe (map tr_score log) = Resolved s ∧
    benchmark config = true ∧
    describe (map tr_time log) = Resolved e ∧
    describe (map (fun tr => promptTokens (usage (tr_response tr))) log) =
      Resolved p ∧
    describe (map (fun tr => completionTokens (usage (tr_response tr))) log) =
      Resolved c ∧
    res = mkEvalResult (map tr_response log) (testCases config)
            (mkSeries (map tr_score log) s)
            (mkSeries (map tr_time log) e)
            (mkSeries
               (map (fun tr => promptTokens (usage (tr_response tr))) log) p)
            (mkSeries
               (map (fun tr => completionTokens (usage (tr_response tr))) log)
               c).
Proof.
  rewrite run_after_loops, run_loops_schedule.
  destruct (for_of _ _ _ _) as [[acc|err] st1] eqn:Hloops; [|done].
  destruct (loops_resolved_chain _ _ _ _ _ _ _ Hloops) as (log & Hchain & ->).
  destruct (recorded_arrays config log empty_acc) as (Hs & Hr & Hp & Hc & He).
  simpl in Hs, Hr, Hp, Hc, He. rewrite Hs, Hr, Hp, Hc, He.
  destruct (describe (map tr_score log)) as [s|] eqn:Hds; [|done].
  destruct (benchmark config) eqn:Hbench.
  - destruct (describe (map tr_time log)) as [e|] eqn:Hde; [|done].
    destruct (describe
                (map (fun tr => promptTokens (usage (tr_response tr))) log))
      as [p|] eqn:Hdp; [|done].
    destruct (describe
                (map (fun tr => completionTokens (usage (tr_response tr))) log))
      as [c|] eqn:Hdc; [|done].
    intros [= <- <-]. by exists log, s, e, p, c.
  - by rewrite describe_empty.
Qed.

Lemma describe_resolved_nonempty (numbers : list num) (s : StatisticsResult num) :
  describe numbers = Resolved s → numbers ≠ [].
Proof. by intros Hd ->. Qed.

(** X12: [run] resolves only for a configuration with benchmarking enabled,
    at least one test case and at least one iteration -- whatever the invoker
    and the evaluator do.  In every other configuration it is rejected. *)
Theorem run_resolves_only_if (config : cfgX) (fn : fnX) (st st' : St World)
    (res : EvalResult num U P) :
  run performance_now config fn st = (Resolved res, st') →
  benchmark config = true ∧
  testCases config ≠ [] ∧
  (1 ≤ iterations config)%Z.
Proof.
  intros Hrun.
  destruct (run_resolved_inv _ _ _ _ _ Hrun)
    as (log & s & e & p & c & Hchain & Hds & Hbench & _).
  split; [done|].
  pose proof (chain_length _ _ _ _ _ _ _ Hchain) as Hlen.
  rewrite schedule_length in Hlen.
  apply describe_resolved_nonempty in Hds.
  assert (Hpos : 0 < length log).
  { destruct log; [done|simpl; lia]. }
  split.
  - intros Hnil. rewrite Hnil in Hlen. simpl in Hlen. lia.
  - destruct (Z.to_nat (iterations config)) eqn:HM; [lia|lia].
Qed.

(** X13: the result of a [run] that resolved is consistent: it echoes the
    test cases of the configuration; [responses] and the four series of
    values all have N×M entries; and the statistics stored with each series
    are those [describe] computes from the values stored with them. *)
Theorem run_result_consistent (config : cfgX) (fn : fnX) (st st' : St World)
    (res : EvalResult num U P) :
  run performance_now config fn st = (Resolved res, st') →
  res_testCases res = testCases config ∧
  length (res_responses res) =
    length (testCases config) * Z.to_nat (iterations config) ∧
  length (values (res_scores res)) = length (res_responses res) ∧
  length (values (res_executionTimes res)) = length (res_responses res) ∧
  length (values (res_promptTokens res)) = length (res_responses res) ∧
  length (values (res_completionTokens res)) = length (res_responses res) ∧
  describe (values (res_scores res)) = Resolved (stats (res_scores res)) ∧
  describe (values (res_executionTimes res)) =
    Resolved (stats (res_executionTimes res)) ∧
  describe (values (res_promptTokens res)) =
    Resolved (stats (res_promptTokens res)) ∧
  describe (values (res_completionTokens res)) =
    Resolved (stats (res_completionTokens res)).
Proof.
  intros Hrun.
  destruct (run_resolved_inv _ _ _ _ _ Hrun)
    as (log & s & e & p & c & Hchain & Hds & Hbench & Hde & Hdp & Hdc & ->).
  pose proof (chain_length _ _ _ _ _ _ _ Hchain) as Hlen.
  rewrite schedule_length in Hlen.
  cbn [res_testCases res_responses res_scores res_executionTimes
       res_promptTokens res_completionTokens values stats].
  rewrite !length_map. done.
Qed.

(** A chain of trials scored by a constant evaluator has constant scores. *)
Lemma chain_constant_scores (config : cfgX) (fn : fnX) (z : num)
    (sched : list (TestCase P * nat)) (st st' : St World)
    (log : list (TrialRecord num U)) :
  (∀ tc r, evaluator config tc r = ret z) →
  trials_chain performance_now config fn sched st log st' →
  map tr_score log = repeat z (length log).
Proof.
  intros Hev. induction 1 as [st|tc i later st st1 st' tr log Htrial _ IH].
  - reflexivity.
  - simpl. rewrite IH. f_equal.
    unfold one_trial, bind in Htrial.
    destruct (timed_invocation _ _ _ _) as [[t|e] s1]; [|done].
    rewrite Hev in Htrial. unfold ret in Htrial. by injection Htrial as <- _.
Qed.

(** X14: when the configuration gives no evaluator, the default one scores
    every trial 0: a run that resolves has a [scores] series of N×M
    zeros. *)
Theorem default_evaluator_scores_zero (config : EvalConfig) (fn : fnX)
    (st st' : St World) (res : EvalResult num U P) :
  opt_evaluator config = None →
  run performance_now (Evaluator_new config) fn st = (Resolved res, st') →
  values (res_scores res) =
    repeat (num_of_nat 0)
      (length (testCases (Evaluator_new config)) *
       Z.to_nat (iterations (Evaluator_new config))).
Proof.
  intros Hnone Hrun.
  destruct (run_resolved_inv _ _ _ _ _ Hrun)
    as (log & s & e & p & c & Hchain & _ & _ & _ & _ & _ & ->).
  pose proof (chain_length _ _ _ _ _ _ _ Hchain) as Hlen.
  rewrite schedule_length in Hlen.
  cbn [res_scores values]. rewrite <- Hlen.
  eapply chain_constant_scores; [|exact Hchain].
  intros tc r. unfold Evaluator_new; simpl. by rewrite Hnone.
Qed.

End RunExtras.

(** * An evaluation of a bound invoker *)

Section EvalOverLamp.
Context {num U World P : Type} `{JSNumber num}.
Variable generateText :
  gmap string Val → World → Outcome (GenText num) * World.
Variable generateObject :
  gmap string Val → World → Outcome (GenObject num U) * World.
Variable json_stringify : U → Outcome (option string).
Variable columns : option Z.
Variable performance_now : World → num * World.
Variable lconfig : gmap string Val.
Variable promptFn : P → PromptOut.

Abbreviation bound_invoker :=
  (lamp (Args := P) (spied TextCall generateText)
     (spied ObjectCall generateObject) json_stringify columns lconfig promptFn).

(** A resolved trial of the bound invoker adds one call to the log: the call
    for the input of its test case. *)
Lemma one_trial_logs_call
    (config : Config (num := num) (U := U) (World := list Call * World) (P := P))
    (testCase : TestCase P) (s s1 : St (list Call * World))
    (tr : TrialRecord num U) :
  (∀ tc r s, fst (world (snd (evaluator config tc r s))) = fst (world s)) →
  one_trial (logged_clock performance_now) config bound_invoker testCase s =
    (Resolved tr, s1) →
  fst (world s1) =
    fst (world s) ++ [forwarded_call lconfig (promptFn (input testCase))].
Proof.
  intros Hkeep.
  unfold one_trial, timed_invocation, bind, ret, now, extern, logged_clock.
  destruct s as [[lg w] out]. cbn [world stdout fst snd].
  destruct (performance_now w) as [t0 w0]. cbn [world stdout fst snd].
  pose proof (spy_lamp_log generateText generateObject json_stringify columns
                lconfig promptFn (input testCase) lg w0 out) as Hlog.
  destruct (bound_invoker (input testCase) (mkSt (lg, w0) out))
    as [[r|e] [[lg2 w2] out2]]; [|done].
  cbn [world stdout fst snd] in *.
  destruct (performance_now w2) as [t1 w3]. cbn [world stdout fst snd].
  pose proof (Hkeep testCase r (mkSt (lg2, w3) out2)) as Hev.
  destruct (evaluator config testCase r (mkSt (lg2, w3) out2))
    as [[v|e] s4]; [|done].
  cbn [world stdout fst snd] in *.
  intros [= _ <-]. by rewrite Hev.
Qed.

Lemma chain_logs_calls
    (config : Config (num := num) (U := U) (World := list Call * World) (P := P))
    (sched : list (TestCase P * nat)) (s s' : St (list Call * World))
    (log : list (TrialRecord num U)) :
  (∀ tc r s, fst (world (snd (evaluator config tc r s))) = fst (world s)) →
  trials_chain (logged_clock performance_now) config bound_invoker
    sched s log s' →
  fst (world s') = fst (world s) ++ scheduled_calls lconfig promptFn sched.
Proof.
  intros Hkeep.
  induction 1 as [st|tc i later st st1 st' tr log Htrial _ IH].
  - simpl. by rewrite app_nil_r.
  - rewrite IH, (one_trial_logs_call config tc st st1 tr Hkeep Htrial).
    by rewrite <- app_assoc.
Qed.

(** X15: evaluating an invoker bound by [lamp].  In a run that resolves, with
    an evaluator that makes no call of its own, the generation capability is
    called exactly N×M times: once for each trial, in the order of the
    trials, each time with the prompt that the prompt function builds from
    the input of the trial's test case. *)
Theorem evaluation_calls_capability_per_trial
    (config : Config (num := num) (U := U) (World := list Call * World) (P := P))
    (log0 : list Call) (w : World) (out : list string)
    (res : EvalResult num U P) (st' : St (list Call * World)) :
  (∀ tc r s, fst (world (snd (evaluator config tc r s))) = fst (world s)) →
  run (logged_clock performance_now) config bound_invoker
    (mkSt (log0, w) out) = (Resolved res, st') →
  fst (world st') =
    log0 ++
    scheduled_calls lconfig promptFn
      (schedule (testCases config) (Z.to_nat (iterations config))) ∧
  length (scheduled_calls lconfig promptFn
            (schedule (testCases config) (Z.to_nat (iterations config)))) =
    length (testCases config) * Z.to_nat (iterations config).
Proof.
  intros Hkeep Hrun.
  destruct (run_resolved_inv _ _ _ _ _ _ Hrun)
    as (log & s & e & p & c & Hchain & _).
  split.
  - by rewrite (chain_logs_calls config _ _ _ _ Hkeep Hchain).
  - unfold scheduled_calls. by rewrite length_map, schedule_length.
Qed.

End EvalOverLamp.

(** * Failures in the middle of an activity *)

Section FailFast.
Context {num U World P : Type} `{JSNumber num}.
Variable generateText :
  gmap string Val → World → Outcome (GenText num) * World.
Variable generateObject :
  gmap string Val → World → Outcome (GenObject num U) * World.
Variable json_stringify : U → Outcome (option string).
Variable columns : option Z.
Variable performance_now : World → num * World.
Variable lconfig : gmap string Val.
Variable promptFn : P → PromptOut.

Abbreviation bound_invoker' :=
  (lamp (Args := P) (spied TextCall generateText)
     (spied ObjectCall generateObject) json_stringify columns lconfig promptFn).

(** X16: [run] fails fast.  When the trials before some trial have resolved
    and the invocation of that trial is rejected, [run] is rejected with the
    same error, and the capability has been called once for each of those
    trials and once for the failing one -- never for a later trial. *)
Theorem run_stops_at_first_fault
    (config : Config (num := num) (U := U) (World := list Call * World) (P := P))
    (st st1 sa sb : St (list Call * World)) (t0 : num) (err : Err)
    (pre post : list (TestCase P * nat)) (testCase : TestCase P) (i : nat)
    (log : list (TrialRecord num U)) :
  (∀ tc r s, fst (world (snd (evaluator config tc r s))) = fst (world s)) →
  schedule (testCases config) (Z.to_nat (iterations config)) =
    pre ++ (testCase, i) :: post →
  trials_chain (logged_clock performance_now) config bound_invoker'
    pre st log st1 →
  now (logged_clock performance_now) st1 = (Resolved t0, sa) →
  bound_invoker' (input testCase) sa = (Rejected err, sb) →
  run (logged_clock performance_now) config bound_invoker' st =
    (Rejected err, sb) ∧
  fst (world sb) =
    fst (world st) ++
    scheduled_calls lconfig promptFn (pre ++ [(testCase, i)]).
Proof.
  intros Hkeep Hsched Hchain Hnow Hfn. split.
  - eapply run_rejected_trial; [exact Hsched|exact Hchain|].
    unfold one_trial, timed_invocation, bind. by rewrite Hnow, Hfn.
  - unfold scheduled_calls. rewrite map_app, app_assoc.
    fold (scheduled_calls lconfig promptFn pre).
    rewrite <- (chain_logs_calls generateText generateObject json_stringify
                  columns performance_now lconfig promptFn config
                  pre st st1 log Hkeep Hchain).
    assert (Hsa : fst (world sa) = fst (world st1)).
    { unfold now, extern, logged_clock in Hnow.
      destruct (performance_now (snd (world st1))) as [t w'].
      injection Hnow as _ <-. reflexivity. }
    destruct sa as [[lg w] out].
    pose proof (spy_lamp_log generateText generateObject json_stringify
                  columns lconfig promptFn (input testCase) lg w out) as Hlog.
    rewrite Hfn in Hlog. simpl in Hlog, Hsa. rewrite Hlog, Hsa. done.
Qed.

End FailFast.

Section TraceFailure.
Context {num U World Args : Type}.
Variable generateText :
  gmap string Val → World → Outcome (GenText num) * World.
Variable generateObject :
  gmap string Val → World → Outcome (GenObject num U) * World.
Variable json_stringify : U → Outcome (option string).
Variable columns : option Z.

(** X17: the debug trace is all or nothing: [logMessages] either writes the
    whole trace and returns, or -- on a terminal less than 9 columns wide --
    throws a [RangeError] before it has written anything. *)
Theorem logMessages_all_or_nothing (system : option string) (user : string)
    (output : option string) (st : St World) :
  (header_fits columns ∧
   logMessages columns system user output st =
     (Resolved tt,
      mkSt (world st) (stdout st ++ trace_lines columns system user output))) ∨
  (∃ c, columns = Some c ∧ (c < 9)%Z ∧
        logMessages columns system user output st =
          (Rejected (RangeError (c - 9)), st)).
Proof.
  destruct (header_fits_cases columns) as [Hfit|(c & Hc & Hlt)].
  - left. split; [done|]. by apply logMessages_fits.
  - right. exists c. split; [done|]. split; [done|].
    by apply logMessages_narrow.
Qed.

(** X18: on a terminal less than 9 columns wide, a call with the debug flag
    set whose generation succeeded is rejected: the generated result is
    lost, although the capability was called and the world is as it left
    it; nothing is written.  The error is the [RangeError] of the trace
    (count: columns - 9) -- unless, in object mode, [JSON.stringify] threw
    on the generated object, and then it is what [JSON.stringify] threw. *)
Theorem debug_call_rejected_on_narrow_terminal (config : gmap string Val)
    (promptFn : Args → PromptOut) (args : Args) (st : St World) (c : Z)
    (w' : World) :
  columns = Some c →
  (c < 9)%Z →
  truthy (get config "debug") = true →
  (if truthy (get config "schema")
   then ∃ g, generateObject
               (call_options (forwarded_call config (promptFn args)))
               (world st) = (Resolved g, w')
   else ∃ g, generateText
               (call_options (forwarded_call config (promptFn args)))
               (world st) = (Resolved g, w')) →
  ∃ e,
    lamp generateText generateObject json_stringify columns config promptFn
      args st = (Rejected e, mkSt w' (stdout st)) ∧
    (truthy (get config "schema") = false → e = RangeError (c - 9)) ∧
    (∀ g, truthy (get config "schema") = true →
          generateObject
            (call_options (forwarded_call config (promptFn args)))
            (world st) = (Resolved g, w') →
          e = match json_stringify (go_object g) with
              | Resolved _ => RangeError (c - 9)
              | Rejected thrown => thrown
              end).
Proof.
  intros Hc Hlt Hdbg. unfold forwarded_call.
  destruct (truthy (get config "schema")) eqn:Hs; cbn [call_options];
    intros [g Hgen].
  - rewrite lamp_object_call, Hgen by done.
    unfold after_generation. rewrite Hdbg, trace_output_object.
    destruct (json_stringify (go_object g)) as [output|thrown] eqn:Hjson.
    + rewrite (logMessages_narrow columns _ _ _ c) by done.
      eexists. split; [reflexivity|]. split; [done|].
      intros g' _ [= <-]. by rewrite Hjson.
    + eexists. split; [reflexivity|]. split; [done|].
      intros g' _ [= <-]. by rewrite Hjson.
  - rewrite lamp_text_call, Hgen by done.
    unfold after_generation. rewrite Hdbg, trace_output_text.
    rewrite (logMessages_narrow columns _ _ _ c) by done.
    eexists. split; [reflexivity|]. split; [done|]. done.
Qed.

(** X19: in debug mode, when [JSON.stringify] throws on the generated
    object, the call is rejected with what it threw, after the capability
    has answered: the result is lost, the world is as the capability left
    it, and nothing is written, whatever the width of the terminal.  The
    same call without the debug flag resolves with the object. *)
Theorem stringify_fault_rejects_debug_call (config : gmap string Val)
    (promptFn : Args → PromptOut) (args : Args) (st : St World)
    (g : GenObject num U) (w' : World) (thrown : Err) :
  truthy (get config "schema") = true →
  generateObject (call_options (forwarded_call config (promptFn args)))
    (world st) = (Resolved g, w') →
  json_stringify (go_object g) = Rejected thrown →
  (truthy (get config "debug") = true →
   lamp generateText generateObject json_stringify columns config promptFn
     args st = (Rejected thrown, mkSt w' (stdout st))) ∧
  (truthy (get config "debug") = false →
   lamp generateText generateObject json_stringify columns config promptFn
     args st =
     (Resolved (mkLResult None (Some (go_object g)) (go_usage g)),
      mkSt w' (stdout st))).
Proof.
  intros Hs. unfold forwarded_call. rewrite Hs. cbn [call_options].
  intros Hgen Hjson. rewrite lamp_object_call, Hgen by done.
  unfold after_generation. rewrite trace_output_object, Hjson.
  split; by intros ->.
Qed.

(** X20: the causes of a rejected call.  Once the prompt function has
    returned its string or its pair, a call of a bound invoker is rejected
    only when the capability is rejected, with the same error, or, after
    the capability has answered and with the debug flag set, when the trace
    fails: [JSON.stringify] threw on the generated object, or the terminal
    is less than 9 columns wide.  A rejected call has written nothing.  In
    particular a call without the debug flag is rejected only by the
    capability. *)
Theorem rejected_call_causes (config : gmap string Val)
    (promptFn : Args → PromptOut) (args : Args) (st st' : St World)
    (e : Err) :
  lamp generateText generateObject json_stringify columns config promptFn
    args st = (Rejected e, st') →
  stdout st' = stdout st ∧
  ((truthy (get config "schema") = false ∧
    generateText (call_options (forwarded_call config (promptFn args)))
      (world st) = (Rejected e, world st')) ∨
   (truthy (get config "schema") = true ∧
    generateObject (call_options (forwarded_call config (promptFn args)))
      (world st) = (Rejected e, world st')) ∨
   (truthy (get config "debug") = true ∧
    ((∃ g, truthy (get config "schema") = true ∧
           generateObject
             (call_options (forwarded_call config (promptFn args)))
             (world st) = (Resolved g, world st') ∧
           json_stringify (go_object g) = Rejected e) ∨
     (∃ c, columns = Some c ∧ (c < 9)%Z ∧ e = RangeError (c - 9))))).
Proof.
  unfold forwarded_call.
  destruct (truthy (get config "schema")) eqn:Hs; cbn [call_options].
  - rewrite lamp_object_call by done.
    destruct (generateObject _ _) as [[g|e0] w1] eqn:Hgen.
    + intros Hrej.
      apply after_generation_rejected in Hrej as (Hdbg & -> & Hcause).
      split; [done|]. right. right. split; [done|].
      destruct Hcause as [Hjson|Hnarrow]; [left|by right].
      exists g. rewrite trace_output_object in Hjson. by cbn [world].
    + intros [= <- <-]. split; [done|]. right. left. by cbn [world].
  - rewrite lamp_text_call by done.
    destruct (generateText _ _) as [[g|e0] w1] eqn:Hgen.
    + intros Hrej.
      apply after_generation_rejected in Hrej as (Hdbg & -> & Hcause).
      split; [done|]. right. right. split; [done|].
      destruct Hcause as [Hjson|Hnarrow]; [|by right].
      by rewrite trace_output_text in Hjson.
    + intros [= <- <-]. split; [done|]. left. by cbn [world].
Qed.

End TraceFailure.

(** * The further properties on concrete inputs *)

Lemma writeHeader_fills_the_width_witness :
  writeHeader (Some 20%Z) "Prompt:" start_state =
    (Resolved tt,
     mkSt (world start_state)
       (stdout start_state ++
        [ESC +:+ "[32m" +:+ NL +:+ header_line 20 "Prompt:" +:+ NL])) ∧
  Z.of_nat (String.length (header_line 20 "Prompt:")) = 20%Z.
Proof.
  apply (writeHeader_fills_the_width 20%Z "Prompt:" start_state).
  simpl. lia.
Defined.

Lemma writehr_spans_the_width_witness :
  writehr (Some 5%Z) start_state =
    (Resolved tt,
     mkSt (world start_state)
       (stdout start_state ++
        [ESC +:+ "[36m" +:+ NL +:+ repeat_string "-" (Z.to_nat 5) +:+ NL])) ∧
  Z.of_nat (String.length (repeat_string "-" (Z.to_nat 5))) = 5%Z.
Proof.
  apply (writehr_spans_the_width 5%Z start_state). lia.
Defined.

Lemma lamp_returns_generation_witness :
  fst (lamp (fixed_text "fig, plum") (fixed_object "fig") quote_string None
         plain_config fruit_prompt "blue" start_state) =
    Resolved (mkLResult (Some "fig, plum") None sample_usage) ∧
  world (snd (lamp (fixed_text "fig, plum") (fixed_object "fig") quote_string
                None plain_config fruit_prompt "blue" start_state)) =
    clock_start.
Proof.
  destruct (lamp_returns_generation (fixed_text "fig, plum")
              (fixed_object "fig") quote_string None plain_config fruit_prompt
              "blue" start_state) as [Htext _].
  destruct (Htext (mkGenText "fig, plum" sample_usage) clock_start
              eq_refl eq_refl) as (Hworld & _ & Hvalue).
  split; [apply Hvalue; by left|exact Hworld].
Defined.

Lemma lamp_silent_without_debug_witness :
  stdout (snd (lamp (fixed_text "fig, plum") (fixed_object "fig") quote_string
                 (Some 0%Z) plain_config fruit_prompt "blue" start_state)) =
  stdout start_state.
Proof.
  apply (lamp_silent_without_debug (fixed_text "fig, plum")
           (fixed_object "fig") quote_string (Some 0%Z) plain_config
           fruit_prompt "blue" start_state).
  reflexivity.
Defined.

Lemma debug_trace_shows_generation_witness :
  lamp (fixed_text "fig, plum") (fixed_object "fig") quote_string
    None (<["debug" := VBool true]> schema_config) brief_prompt
    "blue" start_state =
  (Resolved (mkLResult None (Some "fig") sample_usage),
   mkSt clock_start
     (stdout start_state ++
      trace_lines None (Some "Be brief.") "Name a blue fruit."
        (Some (String "034"%char "fig" +:+ String "034"%char "")))).
Proof.
  destruct (debug_trace_shows_generation (fixed_text "fig, plum")
              (fixed_object "fig") quote_string None
              (<["debug" := VBool true]> schema_config) brief_prompt
              "blue" start_state) as [_ Hobject]; [reflexivity|exact I|].
  apply (Hobject (mkGenObject "fig" sample_usage) clock_start); reflexivity.
Defined.

Lemma empty_system_message_witness :
  lamp (fixed_text "fig, plum") (fixed_object "fig") quote_string None
    debug_config empty_system_prompt "blue" start_state =
  lamp (fixed_text "fig, plum") (fixed_object "fig") quote_string None
    debug_config bare_prompt "blue" start_state.
Proof.
  destruct (empty_system_message (fixed_text "fig, plum") (fixed_object "fig")
              quote_string None debug_config empty_system_prompt bare_prompt
              "blue" "Name a blue fruit." start_state eq_refl eq_refl)
    as (_ & _ & Hsame).
  apply Hsame; reflexivity.
Defined.

Lemma run_resolves_only_if_witness :
  benchmark red_fruit_eval = true ∧
  testCases red_fruit_eval ≠ [] ∧
  (1 ≤ iterations red_fruit_eval)%Z.
Proof.
  destruct (run ticking_clock red_fruit_eval echo_invoker start_state)
    as [[res|e] st'] eqn:Hrun.
  - exact (run_resolves_only_if ticking_clock red_fruit_eval echo_invoker
             start_state st' res Hrun).
  - vm_compute in Hrun. discriminate Hrun.
Defined.

Lemma run_result_consistent_witness :
  ∃ res st',
    run ticking_clock red_fruit_eval echo_invoker start_state =
      (Resolved res, st') ∧
    length (res_responses res) = 1 * 2 ∧
    describe (values (res_scores res)) = Resolved (stats (res_scores res)).
Proof.
  destruct (run ticking_clock red_fruit_eval echo_invoker start_state)
    as [[res|e] st'] eqn:Hrun.
  - destruct (run_result_consistent ticking_clock red_fruit_eval echo_invoker
                start_state st' res Hrun)
      as (_ & Hlen & _ & _ & _ & _ & Hstats & _).
    exists res, st'. split; [reflexivity|]. split; [exact Hlen|exact Hstats].
  - vm_compute in Hrun. discriminate Hrun.
Defined.

Lemma default_evaluator_scores_zero_witness :
  ∃ res st',
    run ticking_clock (Evaluator_new no_evaluator_config) echo_invoker
      start_state = (Resolved res, st') ∧
    values (res_scores res) = repeat (num_of_nat 0) (1 * 2).
Proof.
  destruct (run ticking_clock (Evaluator_new no_evaluator_config) echo_invoker
              start_state) as [[res|e] st'] eqn:Hrun.
  - exists res, st'. split; [reflexivity|].
    exact (default_evaluator_scores_zero ticking_clock no_evaluator_config
             echo_invoker start_state st' res eq_refl Hrun).
  - vm_compute in Hrun. discriminate Hrun.
Defined.

Lemma evaluation_calls_capability_per_trial_witness :
  ∃ st',
    snd (run (logged_clock ticking_clock) logged_fruit_eval
           (lamp (spied TextCall (fixed_text "fig, plum"))
              (spied ObjectCall (fixed_object "fig")) quote_string None
              plain_config fruit_prompt)
           logged_start) = st' ∧
    fst (world st') =
      [] ++ scheduled_calls plain_config fruit_prompt
              (schedule [red_fruit] 2).
Proof.
  destruct (run (logged_clock ticking_clock) logged_fruit_eval
              (lamp (spied TextCall (fixed_text "fig, plum"))
                 (spied ObjectCall (fixed_object "fig")) quote_string None
                 plain_config fruit_prompt)
              logged_start) as [[res|e] st'] eqn:Hrun.
  - exists st'. split; [reflexivity|].
    apply (evaluation_calls_capability_per_trial (fixed_text "fig, plum")
             (fixed_object "fig") quote_string None ticking_clock plain_config
             fruit_prompt logged_fruit_eval [] clock_start [] res st').
    + intros tc r s. reflexivity.
    + exact Hrun.
  - vm_compute in Hrun. discriminate Hrun.
Defined.

Lemma run_stops_at_first_fault_witness :
  run (logged_clock ticking_clock) logged_fruit_eval
    (lamp (spied TextCall failing_text) (spied ObjectCall failing_object)
       quote_string None plain_config fruit_prompt)
    logged_start =
    (Rejected rate_limited,
     mkSt ([forwarded_call plain_config (fruit_prompt "red")],
           snd (ticking_clock clock_start)) []) ∧
  [forwarded_call plain_config (fruit_prompt "red")] =
    [] ++ scheduled_calls plain_config fruit_prompt ([] ++ [(red_fruit, 0)]).
Proof.
  apply (run_stops_at_first_fault failing_text failing_object quote_string
           None ticking_clock plain_config fruit_prompt logged_fruit_eval
           logged_start logged_start logged_after_reading
           (mkSt ([forwarded_call plain_config (fruit_prompt "red")],
                  snd (ticking_clock clock_start)) [])
           clock_start rate_limited [] [(red_fruit, 1)] red_fruit 0 []).
  - intros tc r s. reflexivity.
  - reflexivity.
  - constructor.
  - reflexivity.
  - reflexivity.
Defined.

Lemma debug_call_rejected_on_narrow_terminal_witness :
  lamp (fixed_text "fig, plum") (fixed_object "fig") quote_string (Some 8%Z)
    debug_config fruit_prompt "blue" start_state =
  (Rejected (RangeError (8 - 9)), mkSt clock_start (stdout start_state)).
Proof.
  destruct (debug_call_rejected_on_narrow_terminal (fixed_text "fig, plum")
              (fixed_object "fig") quote_string (Some 8%Z) debug_config
              fruit_prompt "blue" start_state 8%Z clock_start)
    as (e & Hrun & Htext & _).
  - reflexivity.
  - lia.
  - reflexivity.
  - exists (mkGenText "fig, plum" sample_usage). reflexivity.
  - rewrite Hrun, (Htext eq_refl). reflexivity.
Defined.

Lemma rejected_call_causes_witness :
  stdout start_state = stdout start_state ∧
  ((truthy (get plain_config "schema") = false ∧
    failing_text (call_options (forwarded_call plain_config (fruit_prompt "blue")))
      (world start_state) = (Rejected rate_limited, world start_state)) ∨
   (truthy (get plain_config "schema") = true ∧
    failing_object
      (call_options (forwarded_call plain_config (fruit_prompt "blue")))
      (world start_state) = (Rejected rate_limited, world start_state)) ∨
   (truthy (get plain_config "debug") = true ∧
    ((∃ g, truthy (get plain_config "schema") = true ∧
           failing_object
             (call_options (forwarded_call plain_config (fruit_prompt "blue")))
             (world start_state) = (Resolved g, world start_state) ∧
           quote_string (go_object g) = Rejected rate_limited) ∨
     (∃ c, None = Some c ∧ (c < 9)%Z ∧ rate_limited = RangeError (c - 9))))).
Proof.
  apply (rejected_call_causes failing_text failing_object quote_string None
           plain_config fruit_prompt "blue" start_state start_state
           rate_limited).
  reflexivity.
Defined.

Lemma stringify_fault_rejects_debug_call_witness :
  lamp (fixed_text "fig, plum") (fixed_object "fig") throwing_stringify None
    (<["debug" := VBool true]> schema_config) fruit_prompt "blue" start_state =
  (Rejected not_serializable, mkSt clock_start (stdout start_state)).
Proof.
  destruct (stringify_fault_rejects_debug_call (fixed_text "fig, plum")
              (fixed_object "fig") throwing_stringify None
              (<["debug" := VBool true]> schema_config) fruit_prompt "blue"
              start_state (mkGenObject "fig" sample_usage) clock_start
              not_serializable) as [Hon _]; [reflexivity..|].
  apply Hon. reflexivity.
Defined.

Module ExtraRuns.
Import PrimFloat.

Lemma describe_picks_elements_witness :
  ∃ r,
    describe [2; nan; 1]%float = Resolved r ∧
    In (max r) [2; nan; 1]%float ∧
    In (min r) [2; nan; 1]%float ∧
    In (median r) [2; nan; 1]%float.
Proof.
  destruct (describe_picks_elements [2; nan; 1]%float)
    as (r & Hd & Hmax & Hmin & Hmed); [discriminate|].
  exists r. split; [exact Hd|]. split; [exact Hmax|]. split; [exact Hmin|].
  apply Hmed. reflexivity.
Defined.

End ExtraRuns.
